(** * GrammarMiner: a shallow embedding of the notebook's grammar miner

    The notebook [docs/beta/notebooks/GrammarMiner.ipynb] defines six Python
    functions, [traceit], [trace_function], [nonterminal], [get_grammar],
    [merge_grammars] and [get_merged_grammar].  They are embedded here as
    Rocq functions and the properties of the specification are proved (or
    refuted) on that embedding.

    Modelling decisions.
    - A Python [str] is a list of characters with code points 0 to 255
      ([list ascii]); on these [str.lower] moves the capital letters, A-Z
      and the accented capitals of Latin-1, to their small letters and
      leaves every other character as it is.
    - A Python [dict] is an association list in insertion order: iteration
      order matters for [get_grammar] and [merge_grammars].
    - The two globals [the_values], [the_input] and the interpreter's trace
      hook ([sys.settrace]) form an explicit state, threaded by a small
      state-and-exception monad.
    - The traced callable is a black box: all the miner can see of it is the
      sequence of frames the hook is shown, and whether the call returns or
      raises.  The miner's own frames are not part of that sequence: the
      interpreter shows them to the hook only when the hook is already
      installed at the time the miner is called, which is the state an
      earlier call that raised leaves behind.  What is proved about the
      content of a trace record is therefore stated for calls made while no
      hook is installed ([trace_hook st = None]). *)

From Stdlib Require Import Ascii String.
From Stdlib Require Import List Bool Arith Lia PeanoNat.
Import ListNotations.

Set Implicit Arguments.

(** ** Python strings *)

Module PyStr.

Definition str := list ascii.

(** String literals are written [L "text"]. *)
Definition L (s : string) : str := list_ascii_of_string s.
Arguments L s%_string.

Definition ascii_eqb (a b : ascii) : bool := Ascii.eqb a b.
Arguments ascii_eqb : simpl never.

Fixpoint str_eqb (a b : str) : bool :=
  match a, b with
  | [], [] => true
  | x :: a', y :: b' => ascii_eqb x y && str_eqb a' b'
  | _, _ => false
  end.

(** [s.startswith(p)] *)
Fixpoint prefix (p s : str) : bool :=
  match p, s with
  | [], _ => true
  | _ :: _, [] => false
  | x :: p', y :: s' => ascii_eqb x y && prefix p' s'
  end.

(** [p in s] on strings: [p] starts at some position of [s]. *)
Fixpoint str_in (p s : str) : bool :=
  prefix p s ||
  match s with
  | [] => false
  | _ :: s' => str_in p s'
  end.

(** [c.lower()] for one character.  Among the code points 0 to 255 the
    capital letters are A-Z (65..90) and the accented capitals 192..214 and
    216..222 (215 is the multiplication sign); each moves to the small
    letter 32 places further, and every other character is unchanged. *)
Definition lower_char (c : ascii) : ascii :=
  let n := nat_of_ascii c in
  if ((65 <=? n) && (n <=? 90))
     || ((192 <=? n) && (n <=? 214))
     || ((216 <=? n) && (n <=? 222))
  then ascii_of_nat (n + 32)
  else c.

(** [s.lower()] *)
Definition lower (s : str) : str := map lower_char s.

(** [s.replace(old, new)]: every non-overlapping occurrence of [old], found
    scanning from the left, is replaced by [new].  [skip] counts the
    characters of the occurrence just replaced that are still to be passed
    over.  With an empty [old] Python inserts [new] before every character
    and at the end. *)
Fixpoint replace_scan (old new : str) (skip : nat) (s : str) : str :=
  match s with
  | [] => []
  | c :: s' =>
      match skip with
      | S k => replace_scan old new k s'
      | O =>
          if prefix old s
          then new ++ replace_scan old new (length old - 1) s'
          else c :: replace_scan old new 0 s'
      end
  end.

Definition replace (old new s : str) : str :=
  match old with
  | [] => new ++ flat_map (fun c => c :: new) s
  | _ :: _ => replace_scan old new 0 s
  end.

(** The specification's reading of the substitution: only the first
    occurrence of [old] is replaced. *)
Fixpoint replace_first (old new s : str) : str :=
  match s with
  | [] => if prefix old [] then new else []
  | c :: s' =>
      if prefix old s
      then new ++ skipn (length old) s
      else c :: replace_first old new s'
  end.

(** [new.join(segs)] *)
Fixpoint join (sep : str) (segs : list str) : str :=
  match segs with
  | [] => []
  | [s] => s
  | s :: rest => s ++ sep ++ join sep rest
  end.

End PyStr.
Import PyStr.

(** ** Python dictionaries, in insertion order *)

Module PyDict.

Section Dict.
Variable V : Type.

Definition dict := list (str * V).

Definition keys (d : dict) : list str := map fst d.

(** [d[k]], [None] standing for [KeyError] *)
Fixpoint dict_get (d : dict) (k : str) : option V :=
  match d with
  | [] => None
  | (k', v) :: d' => if str_eqb k' k then Some v else dict_get d' k
  end.

(** [d[k] = v]: an existing key keeps its place, a new key goes last. *)
Fixpoint dict_set (d : dict) (k : str) (v : V) : dict :=
  match d with
  | [] => [(k, v)]
  | (k', v') :: d' =>
      if str_eqb k' k then (k', v) :: d' else (k', v') :: dict_set d' k v
  end.

(** [del d[k]], [None] standing for [KeyError] *)
Fixpoint dict_del (d : dict) (k : str) : option dict :=
  match d with
  | [] => None
  | (k', v') :: d' =>
      if str_eqb k' k then Some d'
      else match dict_del d' k with
           | Some d'' => Some ((k', v') :: d'')
           | None => None
           end
  end.

End Dict.

End PyDict.
Import PyDict.

(** ** The interpreter state and the monad of the miner *)

Module Miner.

(** A value bound to a local variable: a [str], or any other object. *)
Inductive PyValue :=
| VStr (s : str)
| VOther (tag : nat).

(** [frame.f_locals]: the local bindings of one observed frame. *)
Definition Frame := dict PyValue.

Inductive exn :=
| KeyError (k : str)
| TypeError
| Raised (tag : nat)      (* an exception raised by the traced callable *)
| OutOfFuel.              (* the loop budget of the model ran out; never
                             the result of [get_grammar], see
                             [get_grammar_never_out_of_fuel] *)

(** The one trace function the notebook ever installs. *)
Inductive Hook := Traceit.

(** The globals [the_values] and [the_input], and the hook that
    [sys.settrace] sets. *)
Record State := mkState {
  the_values : dict str;
  the_input : option str;
  trace_hook : option Hook
}.

Inductive result (A : Type) :=
| Ok (a : A)
| Raise (e : exn).
Arguments Ok {A} a.
Arguments Raise {A} e.

Definition M (A : Type) := State -> result A * State.

Definition ret {A} (a : A) : M A := fun st => (Ok a, st).

Definition bind {A B} (m : M A) (k : A -> M B) : M B :=
  fun st =>
    match m st with
    | (Ok a, st') => k a st'
    | (Raise e, st') => (Raise e, st')
    end.

Definition raise {A} (e : exn) : M A := fun st => (Raise e, st).

Notation "x <- m ;; k" := (bind m (fun x => k))
  (at level 61, m at next level, right associativity).
Notation "m ;;; k" := (bind m (fun _ => k))
  (at level 61, right associativity).

Definition get_the_values : M (dict str) := fun st => (Ok (the_values st), st).
Definition get_the_input : M (option str) := fun st => (Ok (the_input st), st).
Definition get_trace_hook : M (option Hook) := fun st => (Ok (trace_hook st), st).

Definition set_the_values (d : dict str) : M unit :=
  fun st => (Ok tt, mkState d (the_input st) (trace_hook st)).
Definition set_the_input (i : option str) : M unit :=
  fun st => (Ok tt, mkState (the_values st) i (trace_hook st)).
(** [sys.settrace(h)] *)
Definition settrace (h : option Hook) : M unit :=
  fun st => (Ok tt, mkState (the_values st) (the_input st) h).

(** A callable taking one string: the frames it shows to an installed hook,
    in order, and the tag of the exception it ends with, if any. *)
Definition Callable := str -> list Frame * option nat.

(** *** [traceit] *)

(** The body of the loop of [traceit] for one binding:
    [if isinstance(value, type('')) and len(value) >= 2 and value in the_input:
         the_values[var] = value].
    The conjunction is evaluated left to right; [value in None] is a
    [TypeError]. *)
Definition record_binding (var : str) (value : PyValue) : M unit :=
  match value with
  | VStr s =>
      if 2 <=? length s then
        i <- get_the_input ;;
        match i with
        | None => raise TypeError
        | Some inp =>
            if str_in s inp then
              d <- get_the_values ;;
              set_the_values (dict_set d var s)
            else ret tt
        end
      else ret tt
  | VOther _ => ret tt
  end.

(** [for var in frame.f_locals.keys(): value = frame.f_locals[var]; ...] *)
Fixpoint traceit (frame : Frame) : M unit :=
  match frame with
  | [] => ret tt
  | (var, value) :: rest => record_binding var value ;;; traceit rest
  end.

(** The interpreter shows every frame to the installed hook; a hook that
    raises is uninstalled before its exception goes on. *)
Fixpoint observe (frames : list Frame) : M unit :=
  match frames with
  | [] => ret tt
  | frame :: rest =>
      h <- get_trace_hook ;;
      match h with
      | None => observe rest
      | Some Traceit =>
          fun st =>
            match traceit frame st with
            | (Ok _, st') => observe rest st'
            | (Raise e, st') => (settrace None ;;; raise e) st'
            end
      end
  end.

(** [function(the_input)] as seen from the miner, called while the miner's
    own frames are not traced: the hook is shown the frames of the callable
    and nothing else. *)
Definition call (function : Callable) (arg : str) : M unit :=
  observe (fst (function arg)) ;;;
  match snd (function arg) with
  | None => ret tt
  | Some tag => raise (Raised tag)
  end.

(** *** [trace_function] *)

Definition trace_function (function : Callable) (input : str) : M (dict str) :=
  set_the_input (Some input) ;;;
  set_the_values [] ;;;
  settrace (Some Traceit) ;;;
  call function input ;;;
  settrace None ;;;
  get_the_values.

(** *** [nonterminal] *)

Definition nonterminal (var : str) : str := L "<" ++ lower var ++ L ">".

(** Modelled from the spec: [START_SYMBOL] is imported from the module
    [Grammars], which is not among the sources; it is the distinguished start
    symbol of a grammar, and the outputs recorded in the notebook show it as
    the key ['<start>']. *)
Definition START_SYMBOL : str := L "<start>".

(** *** [get_grammar] *)

Definition grammar := dict (list str).

(** A pending rule [(var, alt_key, value)]. *)
Definition triple := (str * str * str)%type.

(** [for j in range(0, len(repl_alternatives)): ...] for one rule. *)
Fixpoint scan_alternatives (var value : str) (repl_alternatives : list str)
    (new_rules : list triple) : list str * list triple :=
  match repl_alternatives with
  | [] => ([], new_rules)
  | repl :: rest =>
      if str_in value repl then
        let alt_key := nonterminal var in
        let '(rest', new_rules') :=
          scan_alternatives var value rest
            (new_rules ++ [(var, alt_key, value)]) in
        (replace value alt_key repl :: rest', new_rules')
      else
        let '(rest', new_rules') :=
          scan_alternatives var value rest new_rules in
        (repl :: rest', new_rules')
  end.

(** [for key in grammar: ...] for one traced variable. *)
Fixpoint scan_grammar (var value : str) (g : grammar)
    (new_rules : list triple) : grammar * list triple :=
  match g with
  | [] => ([], new_rules)
  | (key, repl_alternatives) :: rest =>
      let '(alts', new_rules') :=
        scan_alternatives var value repl_alternatives new_rules in
      let '(rest', new_rules'') := scan_grammar var value rest new_rules' in
      ((key, alts') :: rest', new_rules'')
  end.

(** [for var in values: value = values[var]; ...]: one pass over the trace
    record. *)
Fixpoint scan_values (values : dict str) (g : grammar)
    (new_rules : list triple) : grammar * list triple :=
  match values with
  | [] => (g, new_rules)
  | (var, value) :: rest =>
      let '(g', new_rules') := scan_grammar var value g new_rules in
      scan_values rest g' new_rules'
  end.

(** [for (var, alt_key, value) in new_rules:
         grammar[alt_key] = [value]; del values[var]].
    The exception, the grammar and the trace record as the loop leaves
    them. *)
Fixpoint promote (new_rules : list triple) (g : grammar) (values : dict str)
    : option exn * grammar * dict str :=
  match new_rules with
  | [] => (None, g, values)
  | (var, alt_key, value) :: rest =>
      let g' := dict_set g alt_key [value] in
      match dict_del values var with
      | Some values' => promote rest g' values'
      | None => (Some (KeyError var), g', values)
      end
  end.

(** What the [while True] loop ends with, the trace record as it leaves it,
    and the number of passes that made a substitution. *)
Record loop_result := mkLoop {
  outcome : result grammar;
  remaining : dict str;
  passes : nat
}.

Definition one_more_pass (r : loop_result) : loop_result :=
  mkLoop (outcome r) (remaining r) (S (passes r)).

(** [while True: ...], at most [fuel] passes. *)
Fixpoint extract_loop (fuel : nat) (values : dict str) (g : grammar)
    : loop_result :=
  match fuel with
  | O => mkLoop (Raise OutOfFuel) values 0
  | S fuel' =>
      let '(g', new_rules) := scan_values values g [] in
      match new_rules with
      | [] => mkLoop (Ok g') values 0
      | _ :: _ =>
          match promote new_rules g' values with
          | (Some e, _, values') => mkLoop (Raise e) values' 1
          | (None, g'', values') =>
              one_more_pass (extract_loop fuel' values' g'')
          end
      end
  end.

(** [values] is the dictionary [the_values] itself, so what the loop deletes
    is deleted from the global. *)
Definition get_grammar (function : Callable) (input : str) : M grammar :=
  let g := [(START_SYMBOL, [input])] in
  values <- trace_function function input ;;
  let r := extract_loop (S (length values)) values g in
  set_the_values (remaining r) ;;;
  match outcome r with
  | Ok g' => ret g'
  | Raise e => raise e
  end.

(** *** [merge_grammars] *)

(** [repl in repl1] on lists of strings *)
Definition str_mem (x : str) (l : list str) : bool := existsb (str_eqb x) l.

(** [for repl in repl2: if key1 == key2: ...], with [repl1] read once before
    the loop. *)
Fixpoint merge_alternatives (key1 key2 : str) (repl1 repl2 : list str)
    (merged : grammar) (key_found : bool) : grammar * bool :=
  match repl2 with
  | [] => (merged, key_found)
  | repl :: rest =>
      if str_eqb key1 key2 then
        let merged' :=
          if negb (str_mem repl repl1)
          then dict_set merged key1 (repl1 ++ [repl])
          else merged in
        merge_alternatives key1 key2 repl1 rest merged' true
      else merge_alternatives key1 key2 repl1 rest merged key_found
  end.

(** [for key1 in g1: repl1 = g1[key1]; ...]; [g1] and [merged_grammar] are
    one dictionary. *)
Fixpoint merge_keys (keys1 : list str) (key2 : str) (repl2 : list str)
    (merged : grammar) (key_found : bool) : grammar * bool :=
  match keys1 with
  | [] => (merged, key_found)
  | key1 :: rest =>
      let repl1 :=
        match dict_get merged key1 with Some r => r | None => [] end in
      let '(merged', key_found') :=
        merge_alternatives key1 key2 repl1 repl2 merged key_found in
      merge_keys rest key2 repl2 merged' key_found'
  end.

(** The body of [for key2 in g2]. *)
Definition merge_rule (merged : grammar) (key2 : str) (repl2 : list str)
    : grammar :=
  let '(merged', key_found) :=
    merge_keys (keys merged) key2 repl2 merged false in
  if negb key_found then dict_set merged' key2 repl2 else merged'.

Definition merge_grammars (g1 g2 : grammar) : grammar :=
  fold_left (fun merged '(key2, repl2) => merge_rule merged key2 repl2) g2 g1.

(** *** [get_merged_grammar] *)

(** [None] is Python's [None]. *)
Fixpoint merge_inputs (function : Callable) (inputs : list str)
    (merged_grammar : option grammar) : M (option grammar) :=
  match inputs with
  | [] => ret merged_grammar
  | input :: rest =>
      g <- get_grammar function input ;;
      match merged_grammar with
      | None => merge_inputs function rest (Some g)
      | Some m => merge_inputs function rest (Some (merge_grammars m g))
      end
  end.

Definition get_merged_grammar (function : Callable) (inputs : list str)
    : M (option grammar) :=
  merge_inputs function inputs None.

End Miner.
Import Miner.

(** ** The trace record as a function of the observed bindings *)

Module Trace.

(** The string a binding records, if it passes the filter of [traceit]. *)
Definition qualifies (input : str) (value : PyValue) : option str :=
  match value with
  | VStr s => if (2 <=? length s) && str_in s input then Some s else None
  | VOther _ => None
  end.

(** The effect of one observed binding on the trace record. *)
Definition record (input : str) (d : dict str) (b : str * PyValue) : dict str :=
  match qualifies input (snd b) with
  | Some s => dict_set d (fst b) s
  | None => d
  end.

(** The trace record after the bindings of all frames, in order. *)
Definition traced (input : str) (frames : list Frame) : dict str :=
  fold_left (record input) (concat frames) [].

End Trace.
Import Trace.

(** ** Vocabulary for one pass of [get_grammar] *)

Module Pass.

(** [f] applied to every alternative of every rule. *)
Definition map_alts (f : str -> str) (g : grammar) : grammar :=
  map (fun r => (fst r, map f (snd r))) g.

(** All alternatives of a grammar, rule after rule. *)
Definition alternatives (g : grammar) : list str := flat_map snd g.

(** The number of alternatives in which [value] occurs. *)
Definition count_in (value : str) (alts : list str) : nat :=
  length (filter (str_in value) alts).

Definition var_of (t : triple) : str := fst (fst t).

(** The rule a pending triple is promoted to. *)
Definition rule_of (t : triple) : str * list str := (snd (fst t), [snd t]).

(** The triple recorded when [var] is substituted. *)
Definition triple_of (var value : str) : triple :=
  (var, nonterminal var, value).

(** The number of triples recorded for [var]. *)
Definition count_var (var : str) (new_rules : list triple) : nat :=
  length (filter (fun t => str_eqb (var_of t) var) new_rules).

End Pass.
Import Pass.

(** ** Expanding a mined grammar back to a string *)

Module Expansion.

(** A rule with exactly one alternative. *)
Definition single (alts : list str) : bool :=
  match alts with
  | [_] => true
  | _ => false
  end.

(** Inlining the rules into [s], the rule created last first: every
    reference to a rule's key is replaced by the rule's body, itself expanded
    by the rules created after it. *)
Fixpoint expand_str (rules : grammar) (s : str) : str :=
  match rules with
  | [] => s
  | (key, alts) :: rest =>
      replace key (expand_str rest (hd [] alts)) (expand_str rest s)
  end.

(** The full expansion of the single alternative of the start rule; [None]
    when the grammar does not begin with the start rule or some rule does
    not have exactly one alternative. *)
Definition expand_start (g : grammar) : option str :=
  match g with
  | (key, [a]) :: rules =>
      if str_eqb key START_SYMBOL && forallb (fun r => single (snd r)) rules
      then Some (expand_str rules a)
      else None
  | _ => None
  end.

(** [c] is an angle bracket. *)
Definition is_bracket (c : ascii) : bool :=
  ascii_eqb c "<" || ascii_eqb c ">".

(** No character of [s] is an angle bracket, as in every identifier. *)
Definition no_brackets (s : str) : bool :=
  forallb (fun c => negb (is_bracket c)) s.

(** No string occurs twice in [l]. *)
Fixpoint distinct (l : list str) : bool :=
  match l with
  | [] => true
  | x :: rest => negb (str_mem x rest) && distinct rest
  end.

(** The names of a trace record do not clash: no name contains an angle
    bracket, the nonterminals of two names differ and differ from the start
    symbol, and no nonterminal is already text of the input. *)
Definition well_named (values : dict str) (input : str) : bool :=
  forallb no_brackets (keys values)
  && distinct (START_SYMBOL :: map nonterminal (keys values))
  && forallb (fun var => negb (str_in (nonterminal var) input)) (keys values).

(** A nonterminal token: a name without angle brackets, in angle brackets. *)
Definition is_token (k : str) : Prop :=
  exists n, k = "<"%char :: n ++ [">"%char] /\ no_brackets n = true.

(** What the proof of the round trip needs of a trace record: names are not
    repeated, their nonterminals are tokens, differ from each other and do
    not occur in the input, and every value is a non-empty part of the
    input. *)
Record Names (input : str) (values : dict str) : Prop := mkNames {
  names_nodup : NoDup (keys values);
  names_token : forall var, In var (keys values) -> is_token (nonterminal var);
  names_inj : forall u w, In u (keys values) -> In w (keys values) ->
                nonterminal u = nonterminal w -> u = w;
  names_input : forall var, In var (keys values) ->
                  str_in (nonterminal var) input = false;
  names_values : forall var value, In (var, value) values ->
                   value <> [] /\ str_in value input = true
}.

(** The grammar [g], with the pending rules added, expands to [input]. *)
Definition expands_to (input : str) (g : grammar) (pending : list triple)
    : Prop :=
  exists a0 rules,
    g = (START_SYMBOL, [a0]) :: rules /\
    forallb (fun r => single (snd r)) rules = true /\
    expand_str (rules ++ map rule_of pending) a0 = input.

(** The key [k] occurs in no alternative of [g]. *)
Definition fresh_in (k : str) (g : grammar) : Prop :=
  Forall (fun a => str_in k a = false) (alternatives g).

(** A pending triple is the triple of an entry of the trace record. *)
Definition from_record (values : dict str) (t : triple) : Prop :=
  exists var value, In (var, value) values /\ t = triple_of var value.

(** The segments between the occurrences of [value] that a scan from the
    left finds: [value] starts nowhere inside a segment, also when the
    segment is followed by [value], and does not occur in the last one. *)
Fixpoint separated (value : str) (segs : list str) : bool :=
  match segs with
  | [] => true
  | [s] => negb (str_in value s)
  | s :: rest =>
      negb (str_in value (s ++ removelast value)) && separated value rest
  end.

End Expansion.
Import Expansion.

(** ** Callables and states used as concrete inputs *)

Module Demo.

Definition initial_state : State := mkState [] None None.

(** One frame binding [x] to ["ab"]. *)
Definition binds_x : Callable :=
  fun _ => ([[(L "x", VStr (L "ab"))]], None).

(** The names [A] and [a] have the same nonterminal. *)
Definition name_clash : Callable :=
  fun _ => ([[(L "A", VStr (L "ab")); (L "a", VStr (L "cd"))]], None).

(** A URL splitter: the whole input, then its parts. *)
Definition url_splitter : Callable :=
  fun input =>
    ([[(L "url", VStr input)];
      [(L "url", VStr input); (L "scheme", VStr (L "http"));
       (L "netloc", VStr (L "a.org")); (L "port", VOther 80);
       (L "fragment", VStr (L "top")); (L "sep", VStr (L "#"))]],
     None).

(** [w] is part of the values of both [u] and [v]. *)
Definition shared_part : Callable :=
  fun _ =>
    ([[(L "u", VStr (L "xab")); (L "v", VStr (L "yab"));
       (L "w", VStr (L "ab"))]],
     None).

(** The same name bound in two frames, then the callable returns. *)
Definition rebinds : Callable :=
  fun _ =>
    ([[(L "part", VStr (L "ab")); (L "n", VOther 1)];
      [(L "part", VStr (L "cd"))];
      [(L "part", VStr (L "zz")); (L "part2", VStr (L "c"))]],
     None).

(** A callable that raises after one frame. *)
Definition raises : Callable :=
  fun _ => ([[(L "x", VStr (L "ab"))]], Some 7).

End Demo.
Import Demo.

(** ** Vocabulary for the further properties *)

Module Further.

(** The alternatives of [repl2] that [repl1] lacks, in order. *)
Definition new_alts (repl1 repl2 : list str) : list str :=
  filter (fun r => negb (str_mem r repl1)) repl2.

(** What [merge_grammars] makes of a rule [repl1] of [g1] when [g2] has the
    rule [repl2] under the same key. *)
Definition merged_rule (repl1 repl2 : list str) : list str :=
  match repl2 with
  | [] => []
  | _ :: _ =>
      match rev (new_alts repl1 repl2) with
      | [] => repl1
      | x :: _ => repl1 ++ [x]
      end
  end.

(** Some binding of the frame is a string of two characters or more. *)
Definition has_long_str (frame : Frame) : bool :=
  existsb (fun b => match snd b with
                    | VStr s => 2 <=? length s
                    | VOther _ => false
                    end) frame.

(** The keys of [l] that are not in [seen], each once, in order. *)
Definition new_keys (seen l : list str) : list str :=
  filter (fun k => negb (str_mem k seen)) l.

(** Two grammars to merge. *)
Definition g_http : grammar :=
  [(L "<start>", [L "<url>"]);
   (L "<url>", [L "<scheme>://<netloc>/"]);
   (L "<scheme>", [L "http"]);
   (L "<netloc>", [L "a.org"])].

Definition g_https : grammar :=
  [(L "<start>", [L "<url>"]);
   (L "<url>", [L "<scheme>://<netloc>/#<fragment>"]);
   (L "<scheme>", [L "https"]);
   (L "<netloc>", [L "a.org"]);
   (L "<fragment>", [L "top"])].

(** A callable that raises on the input ["bad"] only. *)
Definition picky : Callable :=
  fun input =>
    ([[(L "word", VStr input)]],
     if str_eqb input (L "bad") then Some 3 else None).

(** The keys of a grammar with the number of alternatives of each rule. *)
Definition skeleton (g : grammar) : list (str * nat) :=
  map (fun r => (fst r, length (snd r))) g.

(** The first key is the start symbol, no key is repeated and every rule
    has exactly one alternative. *)
Definition well_shaped (g : grammar) : Prop :=
  hd_error (keys g) = Some START_SYMBOL /\
  NoDup (keys g) /\
  Forall (fun r => length (snd r) = 1) g.

(** The value of [zed] straddles the value of [head]: once [head] is
    substituted, [zed] matches nowhere. *)
Definition hidden_value : Callable :=
  fun input =>
    ([[(L "whole", VStr input); (L "head", VStr (L "ab"));
       (L "zed", VStr (L "bc"))]],
     None).


(** The strings of [l], each once, in the order of their first
    occurrence. *)
Definition first_seen (l : list str) : list str :=
  fold_left (fun acc k => if str_mem k acc then acc else acc ++ [k]) l [].

(** The names of the bindings that pass the filter of [traceit], in the
    order observed. *)
Definition qualifying_names (input : str) (bindings : list (str * PyValue))
    : list str :=
  map fst
    (filter (fun b => match qualifies input (snd b) with
                      | Some _ => true
                      | None => false
                      end) bindings).

(** A grammar a fuzzer can use: the start rule first, no key twice, and in
    every rule at least one alternative and no alternative twice. *)
Definition usable (g : grammar) : Prop :=
  hd_error (keys g) = Some START_SYMBOL /\
  NoDup (keys g) /\
  Forall (fun r => snd r <> [] /\ NoDup (snd r)) g.

End Further.
Import Further.

Unset Implicit Arguments.

(** * Facts about strings *)

Section StrFacts.

Lemma ascii_eqb_eq (a b : ascii) : ascii_eqb a b = true <-> a = b.
Proof. apply Ascii.eqb_eq. Qed.

Lemma ascii_eqb_refl (a : ascii) : ascii_eqb a a = true.
Proof. apply ascii_eqb_eq; reflexivity. Qed.

Lemma str_eqb_eq (a b : str) : str_eqb a b = true <-> a = b.
Proof.
  revert b; induction a as [|x a IH]; intros [|y b]; simpl; split;
    try discriminate; try reflexivity.
  - intros H; apply andb_true_iff in H as [H1 H2].
    apply ascii_eqb_eq in H1; apply IH in H2; congruence.
  - intros H; injection H as -> ->.
    rewrite ascii_eqb_refl; simpl; apply IH; reflexivity.
Qed.

Lemma str_eqb_refl (a : str) : str_eqb a a = true.
Proof. apply str_eqb_eq; reflexivity. Qed.

Lemma str_eqb_neq (a b : str) : str_eqb a b = false <-> a <> b.
Proof.
  split.
  - intros H E; apply str_eqb_eq in E; congruence.
  - intros H; destruct (str_eqb a b) eqn:E; [|reflexivity].
    apply str_eqb_eq in E; contradiction.
Qed.

Lemma prefix_app (p t : str) : prefix p (p ++ t) = true.
Proof.
  induction p as [|x p IH]; simpl; [reflexivity|].
  rewrite ascii_eqb_refl; exact IH.
Qed.

Lemma prefix_spec (p s : str) :
  prefix p s = true <-> exists t, s = p ++ t.
Proof.
  split.
  - revert s; induction p as [|x p IH]; intros s H.
    + exists s; reflexivity.
    + destruct s as [|y s]; simpl in H; [discriminate|].
      apply andb_true_iff in H as [H1 H2].
      apply ascii_eqb_eq in H1; subst y.
      destruct (IH _ H2) as [t ->]; exists t; reflexivity.
  - intros [t ->]; apply prefix_app.
Qed.

Lemma prefix_skipn (p s : str) :
  prefix p s = true -> s = p ++ skipn (length p) s.
Proof.
  intros H; apply prefix_spec in H as [t ->].
  rewrite skipn_app, skipn_all, Nat.sub_diag; reflexivity.
Qed.

Lemma prefix_str_in (p s : str) : prefix p s = true -> str_in p s = true.
Proof. destruct s; simpl; intros ->; reflexivity. Qed.

Lemma str_in_spec (p s : str) :
  str_in p s = true <-> exists a b, s = a ++ p ++ b.
Proof.
  split.
  - induction s as [|c s IH]; simpl; intros H.
    + rewrite orb_false_r in H; apply prefix_spec in H as [t Ht].
      exists [], t; exact Ht.
    + apply orb_true_iff in H as [H|H].
      * apply prefix_spec in H as [t Ht]; exists [], t; exact Ht.
      * destruct (IH H) as (a & b & ->); exists (c :: a), b; reflexivity.
  - intros (a & b & ->); induction a as [|c a IH].
    + apply prefix_str_in; exact (prefix_app p b).
    + change (str_in p (c :: a ++ p ++ b) = true); simpl.
      rewrite IH; apply orb_true_r.
Qed.

Lemma str_in_cons_false (p : str) (c : ascii) (s : str) :
  str_in p (c :: s) = false -> prefix p (c :: s) = false /\ str_in p s = false.
Proof. simpl; intros H; apply orb_false_iff in H; exact H. Qed.

Lemma str_in_app_r_false (p a b : str) :
  str_in p (a ++ b) = false -> str_in p b = false.
Proof.
  intros H; destruct (str_in p b) eqn:E; [|reflexivity].
  apply str_in_spec in E as (x & y & ->).
  assert (str_in p (a ++ x ++ p ++ y) = true) as H'.
  { apply str_in_spec; exists (a ++ x), y; rewrite <- !app_assoc; reflexivity. }
  congruence.
Qed.

Lemma str_in_trans (p q s : str) :
  str_in p q = true -> str_in q s = true -> str_in p s = true.
Proof.
  intros H1 H2; apply str_in_spec in H1 as (a & b & ->).
  apply str_in_spec in H2 as (c & d & ->).
  apply str_in_spec; exists (c ++ a), (b ++ d).
  rewrite <- !app_assoc; reflexivity.
Qed.

Lemma str_in_nil (p : str) : p <> [] -> str_in p [] = false.
Proof. destruct p; [contradiction|reflexivity]. Qed.

End StrFacts.

(** * Facts about [replace] *)

Section ReplaceFacts.

Variables old new : str.
Hypothesis old_nonempty : old <> [].

Lemma replace_scan_skip (n : nat) (s : str) :
  replace_scan old new n s = replace_scan old new 0 (skipn n s).
Proof.
  revert s; induction n as [|n IH]; intros s.
  - reflexivity.
  - destruct s as [|c s]; [reflexivity|].
    simpl skipn; rewrite <- IH; reflexivity.
Qed.

Lemma replace_unfold (s : str) : replace old new s = replace_scan old new 0 s.
Proof. unfold replace; destruct old; [contradiction|reflexivity]. Qed.

Lemma replace_nil : replace old new [] = [].
Proof. rewrite replace_unfold; reflexivity. Qed.

Lemma replace_match (s : str) :
  prefix old s = true ->
  replace old new s = new ++ replace old new (skipn (length old) s).
Proof.
  intros H; rewrite !replace_unfold.
  destruct s as [|c s].
  - destruct old; [contradiction|discriminate].
  - cbn [replace_scan]; rewrite H, replace_scan_skip.
    destruct old as [|o os]; [contradiction|].
    simpl; rewrite Nat.sub_0_r; reflexivity.
Qed.

Lemma replace_nomatch (c : ascii) (s : str) :
  prefix old (c :: s) = false ->
  replace old new (c :: s) = c :: replace old new s.
Proof.
  intros H; rewrite !replace_unfold; cbn [replace_scan]; rewrite H.
  reflexivity.
Qed.

(** Induction along the scan of [replace]. *)
Lemma replace_induction (P : str -> Prop) :
  P [] ->
  (forall s, prefix old s = true -> P (skipn (length old) s) -> P s) ->
  (forall c s, prefix old (c :: s) = false -> P s -> P (c :: s)) ->
  forall s, P s.
Proof.
  intros Hnil Hmatch Hstep s.
  remember (length s) as n eqn:En.
  revert s En; induction n as [n IH] using lt_wf_ind; intros s En.
  destruct s as [|c s]; [exact Hnil|].
  destruct (prefix old (c :: s)) eqn:E.
  - apply Hmatch; [exact E|].
    apply (IH (length (skipn (length old) (c :: s)))); [|reflexivity].
    rewrite length_skipn; subst n.
    destruct old; [contradiction|]; simpl; lia.
  - apply Hstep; [exact E|].
    apply (IH (length s)); [subst n; simpl; lia|reflexivity].
Qed.

Lemma replace_notin (s : str) : str_in old s = false -> replace old new s = s.
Proof.
  induction s as [|c s IH]; intros H.
  - apply replace_nil.
  - apply str_in_cons_false in H as [H1 H2].
    rewrite replace_nomatch, IH; auto.
Qed.

(** A word that avoids the first character of [new] and begins the result
    of the replacement begins the original string too. *)
Lemma prefix_replace_back (x : ascii) (new' w t : str) :
  new = x :: new' -> ~ In x w ->
  prefix w (replace old new t) = true -> prefix w t = true.
Proof.
  intros Enew; revert t; induction w as [|y w IH]; intros t Hx H.
  - reflexivity.
  - destruct t as [|c t].
    + rewrite replace_nil in H; discriminate.
    + destruct (prefix old (c :: t)) eqn:E.
      * rewrite (replace_match _ E), Enew in H; simpl in H.
        apply andb_true_iff in H as [H _]; apply ascii_eqb_eq in H.
        exfalso; apply Hx; left; congruence.
      * rewrite (replace_nomatch _ _ E) in H; simpl in H |- *.
        apply andb_true_iff in H as [H1 H2]; rewrite H1; simpl.
        apply IH; [|exact H2].
        intros Hin; apply Hx; right; exact Hin.
Qed.

End ReplaceFacts.

(** Replacing [v] by a key [k] and then [k] by [v] gives the string back,
    when [k] did not occur and the first character of [k] is not repeated in
    it. *)
Lemma replace_inverse (v k k' s : str) (x : ascii) :
  v <> [] -> k = x :: k' -> ~ In x k' ->
  str_in k s = false ->
  replace k v (replace v k s) = s.
Proof.
  intros Hv Ek Hx.
  assert (Hk : k <> []) by (rewrite Ek; discriminate).
  induction s as [|s Hp IH|c s Hp IH] using (replace_induction v Hv); intros Hin.
  - rewrite (replace_nil v k Hv); apply (replace_nil k v Hk).
  - rewrite (replace_match v k Hv _ Hp).
    rewrite (replace_match k v Hk); [|apply prefix_app].
    rewrite skipn_app, skipn_all, Nat.sub_diag; simpl skipn.
    rewrite app_nil_l, IH.
    + symmetry; apply prefix_skipn; exact Hp.
    + rewrite (prefix_skipn _ _ Hp) in Hin.
      apply str_in_app_r_false in Hin; exact Hin.
  - apply str_in_cons_false in Hin as [Hin1 Hin2].
    rewrite (replace_nomatch v k Hv _ _ Hp).
    rewrite (replace_nomatch k v Hk).
    + rewrite IH; auto.
    + destruct (prefix k (c :: replace v k s)) eqn:E; [|reflexivity].
      exfalso; rewrite Ek in E, Hin1; simpl in E, Hin1.
      apply andb_true_iff in E as [E1 E2].
      rewrite E1 in Hin1; simpl in Hin1.
      rewrite <- Ek in E2.
      apply (prefix_replace_back v k Hv x k' k' s Ek Hx) in E2; congruence.
Qed.

(** * Nonterminal tokens *)

Section TokenFacts.

Lemma lower_char_bracket (c : ascii) : is_bracket (lower_char c) = is_bracket c.
Proof.
  destruct c as [b0 b1 b2 b3 b4 b5 b6 b7].
  destruct b0, b1, b2, b3, b4, b5, b6, b7; reflexivity.
Qed.

Lemma no_brackets_lower (s : str) : no_brackets (lower s) = no_brackets s.
Proof.
  induction s as [|c s IH]; [reflexivity|].
  simpl; rewrite lower_char_bracket; f_equal; exact IH.
Qed.

Lemma nonterminal_unfold (var : str) :
  nonterminal var = "<"%char :: lower var ++ [">"%char].
Proof. reflexivity. Qed.

Lemma nonterminal_token (var : str) :
  no_brackets var = true -> is_token (nonterminal var).
Proof.
  intros H; exists (lower var); split; [apply nonterminal_unfold|].
  rewrite no_brackets_lower; exact H.
Qed.

Lemma no_brackets_not_lt (n : str) : no_brackets n = true -> ~ In "<"%char n.
Proof.
  induction n as [|c n IH]; simpl; intros H; [tauto|].
  apply andb_true_iff in H as [H1 H2].
  intros [->|Hin]; [discriminate|exact (IH H2 Hin)].
Qed.

(** A token starts with ["<"], which does not occur again in it. *)
Lemma token_shape (k : str) :
  is_token k -> exists k', k = "<"%char :: k' /\ ~ In "<"%char k'.
Proof.
  intros (n & -> & Hn); exists (n ++ [">"%char]); split; [reflexivity|].
  intros Hin; apply in_app_or in Hin as [Hin|[Hin|[]]].
  - exact (no_brackets_not_lt n Hn Hin).
  - discriminate.
Qed.

Lemma token_nonempty (k : str) : is_token k -> k <> [].
Proof. intros (n & -> & _); discriminate. Qed.

Lemma name_prefix_eq (n2 n R : str) :
  no_brackets n2 = true -> no_brackets n = true ->
  prefix (n2 ++ [">"%char]) (n ++ ">"%char :: R) = true -> n2 = n.
Proof.
  revert n; induction n2 as [|y2 n2 IH]; intros [|y n] H2 H1 H; simpl in *.
  - reflexivity.
  - apply andb_true_iff in H as [H _]; apply ascii_eqb_eq in H; subst y.
    apply andb_true_iff in H1 as [H1 _]; discriminate H1.
  - apply andb_true_iff in H as [H _]; apply ascii_eqb_eq in H; subst y2.
    apply andb_true_iff in H2 as [H2 _]; discriminate H2.
  - apply andb_true_iff in H as [Ha Hb]; apply ascii_eqb_eq in Ha; subst y2.
    apply andb_true_iff in H1 as [_ H1]; apply andb_true_iff in H2 as [_ H2].
    f_equal; apply IH; assumption.
Qed.

Lemma token_prefix_eq (k2 k R : str) :
  is_token k2 -> is_token k -> prefix k2 (k ++ R) = true -> k2 = k.
Proof.
  intros (n2 & -> & H2) (n & -> & H1) H; simpl in H.
  rewrite <- app_assoc in H; simpl in H.
  f_equal; f_equal; eapply name_prefix_eq; eauto.
Qed.

Lemma str_in_skip (x : ascii) (p w R : str) :
  ~ In x w -> str_in (x :: p) (w ++ R) = str_in (x :: p) R.
Proof.
  induction w as [|y w IH]; intros Hx; [reflexivity|].
  change (str_in (x :: p) (y :: w ++ R) = str_in (x :: p) R).
  cbn [str_in prefix].
  destruct (ascii_eqb x y) eqn:E.
  - apply ascii_eqb_eq in E; subst y; exfalso; apply Hx; left; reflexivity.
  - simpl; apply IH; intros Hin; apply Hx; right; exact Hin.
Qed.

Lemma token_in_token_app (k2 k R : str) :
  is_token k2 -> is_token k -> k2 <> k ->
  str_in k2 R = false -> str_in k2 (k ++ R) = false.
Proof.
  intros T2 T1 Hne HR.
  destruct (prefix k2 (k ++ R)) eqn:E.
  - exfalso; apply Hne; eapply token_prefix_eq; eauto.
  - destruct (token_shape k T1) as (k' & -> & Hk').
    destruct (token_shape k2 T2) as (k2' & -> & _).
    change (str_in ("<"%char :: k2') ("<"%char :: k' ++ R) = false).
    cbn [str_in].
    change ("<"%char :: k' ++ R) with (("<"%char :: k') ++ R).
    rewrite E; simpl.
    rewrite str_in_skip; auto.
Qed.

(** A token that does not occur in [s] does not occur after another token
    was substituted into [s]. *)
Lemma fresh_replace (v k k2 s : str) :
  v <> [] -> is_token k -> is_token k2 -> k2 <> k ->
  str_in k2 s = false -> str_in k2 (replace v k s) = false.
Proof.
  intros Hv T1 T2 Hne.
  induction s as [|s Hp IH|c s Hp IH] using (replace_induction v Hv); intros Hin.
  - rewrite (replace_nil v k Hv); exact Hin.
  - rewrite (replace_match v k Hv _ Hp).
    apply token_in_token_app; auto.
    apply IH.
    rewrite (prefix_skipn _ _ Hp) in Hin.
    apply str_in_app_r_false in Hin; exact Hin.
  - apply str_in_cons_false in Hin as [Hin1 Hin2].
    rewrite (replace_nomatch v k Hv _ _ Hp).
    cbn [str_in]; rewrite (IH Hin2), orb_false_r.
    destruct (prefix k2 (c :: replace v k s)) eqn:E; [|reflexivity].
    exfalso.
    destruct (token_shape k T1) as (k' & Ek & Hk').
    destruct (token_shape k2 T2) as (k2' & Ek2 & Hk2').
    rewrite Ek2 in E, Hin1; simpl in E, Hin1.
    apply andb_true_iff in E as [E1 E2].
    rewrite E1 in Hin1; simpl in Hin1.
    apply (prefix_replace_back v k Hv "<"%char k' k2' s Ek Hk2') in E2.
    congruence.
Qed.

End TokenFacts.

(** * The tracer *)

Section TracerFacts.

Lemma record_binding_run (var : str) (value : PyValue) (st : State) (inp : str) :
  the_input st = Some inp ->
  record_binding var value st =
  (Ok tt, mkState (record inp (the_values st) (var, value)) (Some inp)
            (trace_hook st)).
Proof.
  intros Hi; destruct st as [d i h]; simpl in Hi; subst i.
  unfold record_binding, record, qualifies; cbn [fst snd the_values trace_hook].
  destruct value as [s|tag]; [|reflexivity].
  destruct (2 <=? length s); [|reflexivity].
  unfold bind, get_the_input; cbn [the_input andb].
  destruct (str_in s inp); reflexivity.
Qed.

Lemma traceit_run (frame : Frame) (st : State) (inp : str) :
  the_input st = Some inp ->
  traceit frame st =
  (Ok tt, mkState (fold_left (record inp) frame (the_values st)) (Some inp)
            (trace_hook st)).
Proof.
  revert st; induction frame as [|[var value] rest IH]; intros st Hi.
  - destruct st as [d i h]; simpl in *; subst i; reflexivity.
  - cbn [traceit]; unfold bind.
    rewrite (record_binding_run var value st inp Hi).
    rewrite IH by reflexivity; reflexivity.
Qed.

Lemma observe_run (frames : list Frame) (st : State) (inp : str) :
  the_input st = Some inp -> trace_hook st = Some Traceit ->
  observe frames st =
  (Ok tt, mkState (fold_left (record inp) (concat frames) (the_values st))
            (Some inp) (Some Traceit)).
Proof.
  revert st; induction frames as [|frame rest IH]; intros st Hi Hh.
  - destruct st as [d i h]; simpl in *; subst i h; reflexivity.
  - cbn [observe]; unfold bind, get_trace_hook; rewrite Hh.
    rewrite (traceit_run frame st inp Hi).
    rewrite IH by (try reflexivity; exact Hh).
    simpl; rewrite fold_left_app; reflexivity.
Qed.

(** What [trace_function] returns and the state it leaves, from any
    state. *)
Lemma trace_function_run (function : Callable) (input : str) (st : State) :
  trace_function function input st =
  match snd (function input) with
  | None =>
      (Ok (traced input (fst (function input))),
       mkState (traced input (fst (function input))) (Some input) None)
  | Some tag =>
      (Raise (Raised tag),
       mkState (traced input (fst (function input))) (Some input)
         (Some Traceit))
  end.
Proof.
  unfold trace_function, call, bind at 1 2 3.
  simpl.
  unfold bind.
  rewrite (observe_run _ _ input) by reflexivity.
  destruct (snd (function input)); reflexivity.
Qed.

Lemma dict_get_set_same {V} (d : dict V) (k : str) (v : V) :
  dict_get (dict_set d k v) k = Some v.
Proof.
  induction d as [|[k' v'] d IH]; simpl.
  - rewrite str_eqb_refl; reflexivity.
  - destruct (str_eqb k' k) eqn:E; simpl; rewrite E; auto.
Qed.

Lemma dict_get_set_other {V} (d : dict V) (k k2 : str) (v : V) :
  k2 <> k -> dict_get (dict_set d k v) k2 = dict_get d k2.
Proof.
  intros Hne; induction d as [|[k' v'] d IH]; simpl.
  - apply str_eqb_neq in Hne.
    destruct (str_eqb k k2) eqn:E; [|reflexivity].
    apply str_eqb_eq in E; subst; rewrite str_eqb_refl in Hne; discriminate.
  - destruct (str_eqb k' k) eqn:E; simpl.
    + apply str_eqb_eq in E; subst k'.
      destruct (str_eqb k k2) eqn:E2; [|reflexivity].
      apply str_eqb_eq in E2; subst; contradiction.
    + rewrite IH; reflexivity.
Qed.

Lemma keys_dict_set_in {V} (d : dict V) (k : str) (v : V) :
  In k (keys d) -> keys (dict_set d k v) = keys d.
Proof.
  induction d as [|[k' v'] d IH]; simpl; intros H; [contradiction|].
  destruct (str_eqb k' k) eqn:E; simpl; [reflexivity|].
  f_equal; apply IH; destruct H as [H|H]; [|exact H].
  subst; rewrite str_eqb_refl in E; discriminate.
Qed.

Lemma dict_set_fresh {V} (d : dict V) (k : str) (v : V) :
  ~ In k (keys d) -> dict_set d k v = d ++ [(k, v)].
Proof.
  induction d as [|[k' v'] d IH]; simpl; intros H; [reflexivity|].
  destruct (str_eqb k' k) eqn:E.
  - apply str_eqb_eq in E; subst; exfalso; apply H; left; reflexivity.
  - rewrite IH; [reflexivity|]; intros Hin; apply H; right; exact Hin.
Qed.

Lemma in_keys_dec {V} (d : dict V) (k : str) : In k (keys d) \/ ~ In k (keys d).
Proof.
  induction d as [|[k' v'] d IH]; simpl; [right; tauto|].
  destruct (str_eqb k' k) eqn:E.
  - apply str_eqb_eq in E; left; left; exact E.
  - apply str_eqb_neq in E; destruct IH; [left; right; assumption|right; tauto].
Qed.

Lemma keys_dict_set_nodup {V} (d : dict V) (k : str) (v : V) :
  NoDup (keys d) -> NoDup (keys (dict_set d k v)).
Proof.
  intros H; destruct (in_keys_dec d k) as [Hin|Hin].
  - rewrite keys_dict_set_in; assumption.
  - rewrite dict_set_fresh by assumption.
    unfold keys; rewrite map_app; simpl.
    apply NoDup_app; [exact H|repeat constructor; simpl; tauto|].
    intros x Hx [<-|[]]; exact (Hin Hx).
Qed.

Lemma in_dict_set {V} (d : dict V) (k : str) (v : V) (e : str * V) :
  In e (dict_set d k v) -> e = (k, v) \/ In e d.
Proof.
  induction d as [|[k' v'] d IH]; simpl.
  - intros [<-|[]]; left; reflexivity.
  - destruct (str_eqb k' k) eqn:E; simpl.
    + apply str_eqb_eq in E; subst k'; intros [<-|H]; auto.
    + intros [<-|H]; auto; destruct (IH H); auto.
Qed.

Lemma qualifies_spec (input : str) (value : PyValue) (s : str) :
  qualifies input value = Some s <->
  value = VStr s /\ 2 <= length s /\ str_in s input = true.
Proof.
  unfold qualifies; destruct value as [s'|tag].
  - destruct (2 <=? length s') eqn:E1; simpl.
    + apply Nat.leb_le in E1.
      destruct (str_in s' input) eqn:E2; split.
      * intros H; injection H as <-; auto.
      * intros (H & _); injection H as <-; reflexivity.
      * discriminate.
      * intros (H & _ & H3); injection H as <-; congruence.
    + apply Nat.leb_gt in E1; split; [discriminate|].
      intros (H & H2 & _); injection H as <-; lia.
  - split; [discriminate|intros (H & _); discriminate].
Qed.

(** Every entry of a trace record passed the filter, and names are not
    repeated. *)
Lemma fold_record_invariant (input : str) (bindings : list (str * PyValue))
    (d : dict str) :
  NoDup (keys d) ->
  (forall var s, In (var, s) d -> 2 <= length s /\ str_in s input = true) ->
  NoDup (keys (fold_left (record input) bindings d)) /\
  (forall var s, In (var, s) (fold_left (record input) bindings d) ->
                 2 <= length s /\ str_in s input = true).
Proof.
  revert d; induction bindings as [|[var value] rest IH]; intros d Hn Hq.
  - split; assumption.
  - simpl; apply IH; unfold record; simpl;
      destruct (qualifies input value) as [s|] eqn:E; auto.
    + apply keys_dict_set_nodup; exact Hn.
    + intros var' s' Hin; apply in_dict_set in Hin as [Hin|Hin].
      * injection Hin as -> ->; apply qualifies_spec in E; tauto.
      * eapply Hq; eauto.
Qed.

Lemma traced_invariant (input : str) (frames : list Frame) :
  NoDup (keys (traced input frames)) /\
  (forall var s, In (var, s) (traced input frames) ->
                 2 <= length s /\ str_in s input = true).
Proof.
  apply fold_record_invariant; [constructor|intros ? ? []].
Qed.

End TracerFacts.

(** * One pass of the extraction *)

Section PassFacts.

Lemma count_in_app (value : str) (a b : list str) :
  count_in value (a ++ b) = count_in value a + count_in value b.
Proof. unfold count_in; rewrite filter_app, length_app; reflexivity. Qed.

Lemma scan_alternatives_spec (var value : str) (alts : list str)
    (new_rules : list triple) :
  value <> [] ->
  scan_alternatives var value alts new_rules =
  (map (replace value (nonterminal var)) alts,
   new_rules ++ repeat (triple_of var value) (count_in value alts)).
Proof.
  intros Hv; revert new_rules; induction alts as [|repl rest IH]; intros nr.
  - simpl; rewrite app_nil_r; reflexivity.
  - cbn [scan_alternatives map]; unfold count_in; cbn [filter].
    destruct (str_in value repl) eqn:E.
    + rewrite IH; cbn [length repeat].
      rewrite <- app_assoc; reflexivity.
    + rewrite IH, (replace_notin value _ Hv repl E); reflexivity.
Qed.

Lemma scan_grammar_spec (var value : str) (g : grammar)
    (new_rules : list triple) :
  value <> [] ->
  scan_grammar var value g new_rules =
  (map_alts (replace value (nonterminal var)) g,
   new_rules ++
   repeat (triple_of var value) (count_in value (alternatives g))).
Proof.
  intros Hv; revert new_rules; induction g as [|[key alts] rest IH]; intros nr.
  - simpl; rewrite app_nil_r; reflexivity.
  - cbn [scan_grammar]; rewrite scan_alternatives_spec by exact Hv.
    rewrite IH; cbn [map_alts map fst snd alternatives flat_map].
    rewrite count_in_app, repeat_app, <- app_assoc; reflexivity.
Qed.

Lemma keys_map_alts (f : str -> str) (g : grammar) :
  keys (map_alts f g) = keys g.
Proof.
  unfold keys, map_alts; rewrite map_map; apply map_ext; reflexivity.
Qed.

Lemma alternatives_map_alts (f : str -> str) (g : grammar) :
  alternatives (map_alts f g) = map f (alternatives g).
Proof.
  induction g as [|[key alts] rest IH]; [reflexivity|].
  cbn [map_alts map alternatives flat_map fst snd].
  rewrite map_app; f_equal; exact IH.
Qed.

Lemma map_alts_app (f : str -> str) (a b : grammar) :
  map_alts f (a ++ b) = map_alts f a ++ map_alts f b.
Proof. apply map_app. Qed.

Lemma map_alts_id (f : str -> str) (g : grammar) :
  Forall (fun a => f a = a) (alternatives g) -> map_alts f g = g.
Proof.
  induction g as [|[key alts] rest IH]; intros H; [reflexivity|].
  cbn [alternatives flat_map snd] in H; apply Forall_app in H as [H1 H2].
  cbn [map_alts map fst snd]; f_equal; [f_equal|apply IH; exact H2].
  clear - H1; induction alts as [|a alts IH]; [reflexivity|].
  inversion H1; subst; simpl; f_equal; auto.
Qed.

Lemma map_alts_compose (f h : str -> str) (g : grammar) :
  map_alts f (map_alts h g) = map_alts (fun a => f (h a)) g.
Proof.
  unfold map_alts; rewrite map_map; apply map_ext; intros [k alts].
  simpl; rewrite map_map; reflexivity.
Qed.

Lemma count_in_zero (value : str) (alts : list str) :
  count_in value alts = 0 -> Forall (fun a => str_in value a = false) alts.
Proof.
  unfold count_in; induction alts as [|a alts IH]; simpl; intros H.
  - constructor.
  - destruct (str_in value a) eqn:E; [discriminate|].
    constructor; auto.
Qed.

(** The triples of a pass extend those already pending, and each of them is
    the triple of an entry of the trace record. *)
Lemma scan_values_triples (values : dict str) (g g' : grammar)
    (nr nr' : list triple) :
  (forall var value, In (var, value) values -> value <> []) ->
  scan_values values g nr = (g', nr') ->
  keys g' = keys g /\
  exists extra, nr' = nr ++ extra /\
    forall t, In t extra ->
      exists var value, In (var, value) values /\ t = triple_of var value.
Proof.
  revert g nr; induction values as [|[var value] rest IH]; intros g nr Hv H.
  - injection H as <- <-; split; [reflexivity|].
    exists []; rewrite app_nil_r; split; [reflexivity|intros ? []].
  - cbn [scan_values] in H.
    rewrite scan_grammar_spec in H by (apply (Hv var); left; reflexivity).
    apply IH in H as (Hk & extra & -> & Hex).
    + rewrite keys_map_alts in Hk; split; [exact Hk|].
      eexists; rewrite <- app_assoc; split; [reflexivity|].
      intros t Hin; apply in_app_or in Hin as [Hin|Hin].
      * apply repeat_spec in Hin; exists var, value; split; [left|]; auto.
      * destruct (Hex t Hin) as (var' & value' & H1 & H2).
        exists var', value'; split; [right|]; auto.
    + intros var' value' Hin; apply (Hv var'); right; exact Hin.
Qed.

End PassFacts.

(** * Deleting from the trace record and promoting pending rules *)

Section PromoteFacts.

Lemma dict_del_none {V} (d : dict V) (k : str) :
  dict_del d k = None <-> ~ In k (keys d).
Proof.
  induction d as [|[k' v'] d IH]; simpl; [tauto|].
  destruct (str_eqb k' k) eqn:E.
  - apply str_eqb_eq in E; split; [discriminate|intros H; exfalso; auto].
  - apply str_eqb_neq in E.
    destruct (dict_del d k) as [d0|]; split.
    + intros H; discriminate H.
    + intros H; exfalso.
      assert (~ In k (keys d)) as H' by tauto.
      apply IH in H'; discriminate H'.
    + intros _ [H|H]; [contradiction|].
      destruct IH as [IH _]; exact (IH eq_refl H).
    + reflexivity.
Qed.

Lemma dict_del_some {V} (d d' : dict V) (k : str) :
  dict_del d k = Some d' ->
  length d = S (length d') /\
  (forall e, In e d' -> In e d) /\
  (NoDup (keys d) ->
   NoDup (keys d') /\ ~ In k (keys d') /\
   forall e, In e d -> fst e <> k -> In e d').
Proof.
  revert d'; induction d as [|[k' v'] d IH]; simpl; intros d' H; [discriminate|].
  destruct (str_eqb k' k) eqn:E.
  - injection H as <-; apply str_eqb_eq in E; subst k'.
    split; [reflexivity|]; split; [auto|].
    intros Hn; inversion Hn; subst; split; [assumption|]; split; [assumption|].
    intros e [<-|Hin] Hne; [simpl in Hne; contradiction|exact Hin].
  - destruct (dict_del d k) as [d''|] eqn:Ed; [|discriminate].
    injection H as <-; apply str_eqb_neq in E.
    destruct (IH d'' eq_refl) as (Hl & Hi & Hn).
    split; [simpl; lia|]; split.
    + intros e [<-|Hin]; [left; reflexivity|right; auto].
    + intros Hnd; inversion Hnd as [|? ? Hnotin Hnd']; subst.
      destruct (Hn Hnd') as (H1 & H2 & H3); split; [|split].
      * simpl; constructor; [|exact H1].
        intros Hin; apply Hnotin.
        apply in_map_iff in Hin as (e & He & Hin).
        apply in_map_iff; exists e; split; [exact He|auto].
      * simpl; intros [Heq|Hin]; [contradiction|exact (H2 Hin)].
      * intros e [<-|Hin] Hne; [left; reflexivity|right; auto].
Qed.

Lemma promote_ok_length (nr : list triple) (g g' : grammar)
    (values values' : dict str) :
  promote nr g values = (None, g', values') ->
  length values = length nr + length values'.
Proof.
  revert g values; induction nr as [|[[var k] v] rest IH]; intros g values H.
  - injection H as _ <-; reflexivity.
  - cbn [promote] in H.
    destruct (dict_del values var) as [d|] eqn:E; [|discriminate].
    apply IH in H; apply dict_del_some in E as (E & _); simpl; lia.
Qed.

Lemma promote_fail_KeyError (nr : list triple) (g g' : grammar)
    (values values' : dict str) (e : exn) :
  promote nr g values = (Some e, g', values') ->
  exists w, e = KeyError w /\ In w (map var_of nr) /\
            length values' < length values + 1.
Proof.
  revert g values; induction nr as [|[[var k] v] rest IH]; intros g values H.
  - discriminate.
  - cbn [promote] in H.
    destruct (dict_del values var) as [d|] eqn:E.
    + apply IH in H as (w & -> & Hin & Hl); exists w; split; [reflexivity|].
      split; [right; exact Hin|].
      apply dict_del_some in E as (E & _); lia.
    + injection H as <- _ <-; exists var; split; [reflexivity|].
      split; [left; reflexivity|lia].
Qed.

(** A variable that is pending but no longer in the record makes the
    promotion fail. *)
Lemma promote_missing (nr : list triple) (g : grammar) (values : dict str)
    (var : str) :
  In var (map var_of nr) -> ~ In var (keys values) ->
  exists e g' values', promote nr g values = (Some e, g', values').
Proof.
  revert g values; induction nr as [|[[u k] v] rest IH]; intros g values Hin Hm.
  - destruct Hin.
  - cbn [promote].
    destruct (dict_del values u) as [d|] eqn:E; [|eauto].
    destruct Hin as [Hu|Hin].
    + unfold var_of in Hu; simpl in Hu; subst u.
      apply dict_del_none in Hm; congruence.
    + apply IH; [exact Hin|].
      intros Hd; apply Hm.
      apply dict_del_some in E as (_ & Hi & _).
      apply in_map_iff in Hd as (e & He & Hd).
      apply in_map_iff; exists e; auto.
Qed.

Lemma count_var_pos (var : str) (nr : list triple) :
  1 <= count_var var nr -> In var (map var_of nr).
Proof.
  unfold count_var; induction nr as [|t rest IH]; simpl; [lia|].
  destruct (str_eqb (var_of t) var) eqn:E.
  - apply str_eqb_eq in E; intros _; left; exact E.
  - intros H; right; auto.
Qed.

(** Two triples for one variable make the promotion fail. *)
Lemma promote_duplicate (nr : list triple) (g : grammar) (values : dict str)
    (var : str) :
  NoDup (keys values) -> 2 <= count_var var nr ->
  exists e g' values', promote nr g values = (Some e, g', values').
Proof.
  revert g values; induction nr as [|[[u k] v] rest IH]; intros g values Hn Hc.
  - unfold count_var in Hc; simpl in Hc; lia.
  - cbn [promote].
    destruct (dict_del values u) as [d|] eqn:E; [|eauto].
    apply dict_del_some in E as (_ & _ & E); destruct (E Hn) as (Hd & Hu & _).
    unfold count_var in Hc; cbn [filter] in Hc.
    destruct (str_eqb (var_of (u, k, v)) var) eqn:Eu.
    + apply str_eqb_eq in Eu; unfold var_of in Eu; simpl in Eu; subst u.
      apply (promote_missing _ _ _ var); [|exact Hu].
      apply count_var_pos; unfold count_var; simpl in Hc; lia.
    + apply IH; [exact Hd|exact Hc].
Qed.

Lemma promote_ok_nodup (nr : list triple) (g g' : grammar)
    (values values' : dict str) :
  NoDup (keys values) ->
  promote nr g values = (None, g', values') ->
  NoDup (map var_of nr).
Proof.
  revert g values; induction nr as [|[[u k] v] rest IH]; intros g values Hn H.
  - constructor.
  - cbn [promote] in H.
    destruct (dict_del values u) as [d|] eqn:E; [|discriminate].
    apply dict_del_some in E as (_ & _ & E); destruct (E Hn) as (Hd & Hu & _).
    simpl; constructor; [|eapply IH; eauto].
    intros Hin.
    destruct (promote_missing rest (dict_set g k [v]) d u Hin Hu)
      as (e & g1 & v1 & Hp).
    congruence.
Qed.

(** A successful promotion appends the pending rules, when their keys are
    new, and removes exactly the pending variables. *)
Lemma promote_ok_spec (nr : list triple) (g g' : grammar)
    (values values' : dict str) :
  NoDup (keys values) ->
  NoDup (map (fun t => snd (fst t)) nr) ->
  (forall t, In t nr -> ~ In (snd (fst t)) (keys g)) ->
  promote nr g values = (None, g', values') ->
  g' = g ++ map rule_of nr /\
  NoDup (keys values') /\
  (forall e, In e values' -> In e values) /\
  (forall e, In e values' -> ~ In (fst e) (map var_of nr)) /\
  (forall e, In e values -> ~ In (fst e) (map var_of nr) -> In e values').
Proof.
  revert g values; induction nr as [|[[u k] v] rest IH];
    intros g values Hn Hk Hg H.
  - injection H as <- <-; rewrite app_nil_r; simpl; repeat split; auto.
  - cbn [promote] in H.
    destruct (dict_del values u) as [d|] eqn:E; [|discriminate].
    apply dict_del_some in E as (_ & Hsub & E).
    destruct (E Hn) as (Hd & Hu & Hkeep).
    simpl in Hk; inversion Hk as [|? ? Hk1 Hk2]; subst.
    rewrite dict_set_fresh in H by (apply (Hg (u, k, v)); left; reflexivity).
    apply IH in H as (-> & H1 & H2 & H3 & H4); auto.
    + split; [rewrite <- app_assoc; reflexivity|].
      split; [exact H1|]; split; [auto|]; split.
      * intros e He [Heq|Hin]; [|exact (H3 e He Hin)].
        unfold var_of in Heq; simpl in Heq; apply Hu; specialize (H2 e He).
        apply in_map_iff; exists e; split; [symmetry; exact Heq|exact H2].
      * intros e He Hnot; apply H4.
        -- apply Hkeep; [exact He|].
           intros Heq; apply Hnot; left; symmetry; exact Heq.
        -- intros Hin; apply Hnot; right; exact Hin.
    + intros t Hin Hkey.
      unfold keys in Hkey; rewrite map_app in Hkey.
      apply in_app_or in Hkey as [Hkey|[Hkey|[]]].
      * apply (Hg t); [right; exact Hin|exact Hkey].
      * simpl in Hkey; apply Hk1.
        apply in_map_iff; exists t; split; [symmetry; exact Hkey|exact Hin].
Qed.

End PromoteFacts.

(** * The round trip of a one-input extraction *)

Section RoundTrip.

Lemma hd_map_replace (k v : str) (alts : list str) :
  k <> [] -> hd [] (map (replace k v) alts) = replace k v (hd [] alts).
Proof.
  intros Hk; destruct alts; simpl; [|reflexivity].
  symmetry; apply replace_nil; exact Hk.
Qed.

(** Inlining the last rule first. *)
Lemma expand_str_snoc (rules : grammar) (k v s : str) :
  k <> [] ->
  expand_str (rules ++ [(k, [v])]) s =
  expand_str (map_alts (replace k v) rules) (replace k v s).
Proof.
  intros Hk; revert s; induction rules as [|[k1 alts1] rest IH]; intros s.
  - reflexivity.
  - cbn [app expand_str map_alts map fst snd].
    rewrite !IH, hd_map_replace by exact Hk; reflexivity.
Qed.

Lemma nodup_repeat {A} (a b : list A) (x : A) (m : nat) :
  NoDup (a ++ repeat x m ++ b) -> m <= 1.
Proof.
  intros H; apply NoDup_app_remove_l in H.
  destruct m as [|[|m]]; [lia|lia|].
  simpl in H; inversion H as [|? ? Hnotin _]; subst.
  exfalso; apply Hnotin; left; reflexivity.
Qed.

Lemma single_map_alts (f : str -> str) (rules : grammar) :
  forallb (fun r => single (snd r)) (map_alts f rules) =
  forallb (fun r => single (snd r)) rules.
Proof.
  induction rules as [|[k alts] rest IH]; [reflexivity|].
  cbn [map_alts map forallb fst snd]; f_equal; [|exact IH].
  destruct alts as [|a [|b alts]]; reflexivity.
Qed.

Variable input : str.
Variable values : dict str.
Hypothesis HN : Names input values.

Lemma in_keys (var value : str) (d : dict str) :
  In (var, value) d -> In var (keys d).
Proof. intros H; apply in_map_iff; exists (var, value); auto. Qed.

(** No nonterminal of the record occurs in a value of the record. *)
Lemma value_no_token (u var value : str) :
  In u (keys values) -> In (var, value) values ->
  str_in (nonterminal u) value = false.
Proof.
  intros Hu Hv.
  destruct (str_in (nonterminal u) value) eqn:E; [|reflexivity].
  destruct (names_values HN var value Hv) as [_ Hin].
  pose proof (names_input HN u Hu) as Hi.
  rewrite (str_in_trans _ _ _ E Hin) in Hi; discriminate.
Qed.

Lemma pending_no_token (u : str) (nr : list triple) :
  In u (keys values) -> (forall t, In t nr -> from_record values t) ->
  fresh_in (nonterminal u) (map rule_of nr).
Proof.
  intros Hu Hnr; unfold fresh_in.
  induction nr as [|t rest IH]; [constructor|].
  cbn [map alternatives flat_map].
  destruct (Hnr t (or_introl eq_refl)) as (var & value & Hin & ->).
  cbn [rule_of triple_of fst snd app]; constructor.
  - eapply value_no_token; eauto.
  - apply IH; intros t' Ht'; apply Hnr; right; exact Ht'.
Qed.

(** One variable substituted once: the expansion is unchanged. *)
Lemma substitute_expands (var value : str) (g : grammar) (nr : list triple) :
  In (var, value) values ->
  (forall t, In t nr -> from_record values t) ->
  fresh_in (nonterminal var) g ->
  expands_to input g nr ->
  expands_to input (map_alts (replace value (nonterminal var)) g)
    (nr ++ [triple_of var value]).
Proof.
  intros Hin Hnr Hfresh (a0 & rules & -> & Hs & He).
  pose proof (in_keys _ _ _ Hin) as Hvar.
  destruct (names_values HN var value Hin) as [Hv _].
  pose proof (names_token HN var Hvar) as Htok.
  destruct (token_shape _ Htok) as (k' & Ek & Hk').
  pose proof (token_nonempty _ Htok) as Hk.
  unfold fresh_in in Hfresh; cbn [alternatives flat_map snd app] in Hfresh.
  apply Forall_cons_iff in Hfresh as [Hf0 Hfr].
  exists (replace value (nonterminal var) a0),
         (map_alts (replace value (nonterminal var)) rules).
  split; [reflexivity|]; split; [rewrite single_map_alts; exact Hs|].
  rewrite map_app; cbn [map].
  change (rule_of (triple_of var value)) with (nonterminal var, [value]).
  rewrite app_assoc, expand_str_snoc by exact Hk.
  rewrite (replace_inverse value _ k' a0 "<"%char Hv Ek Hk' Hf0).
  rewrite map_alts_app, map_alts_compose.
  rewrite (map_alts_id _ rules).
  - rewrite (map_alts_id _ (map rule_of nr)); [exact He|].
    pose proof (pending_no_token var nr Hvar Hnr) as Hp.
    unfold fresh_in in Hp; eapply Forall_impl; [|exact Hp].
    intros a Ha; apply replace_notin; assumption.
  - eapply Forall_impl; [|exact Hfr].
    intros a Ha; apply (replace_inverse value _ k' a "<"%char); assumption.
Qed.

(** The nonterminal of another variable stays fresh. *)
Lemma substitute_fresh (u var value : str) (g : grammar) :
  In u (keys values) -> In (var, value) values -> u <> var ->
  fresh_in (nonterminal u) g ->
  fresh_in (nonterminal u) (map_alts (replace value (nonterminal var)) g).
Proof.
  intros Hu Hin Hne Hf; unfold fresh_in in *.
  rewrite alternatives_map_alts; apply Forall_map.
  eapply Forall_impl; [|exact Hf].
  intros a Ha; pose proof (in_keys _ _ _ Hin) as Hvar.
  apply fresh_replace; auto.
  - apply (names_values HN var value Hin).
  - apply (names_token HN var Hvar).
  - apply (names_token HN u Hu).
  - intros E; apply Hne; apply (@names_inj input values HN); assumption.
Qed.

(** The invariant of one pass: what is pending and the grammar expand to the
    input, and the nonterminals not yet used are fresh. *)
Lemma scan_values_invariant (rest : dict str) :
  forall (g g' : grammar) (nr nr' : list triple),
  (forall e, In e rest -> In e values) ->
  NoDup (keys rest) ->
  (forall t, In t nr -> ~ In (var_of t) (keys rest)) ->
  (forall t, In t nr -> from_record values t) ->
  scan_values rest g nr = (g', nr') ->
  NoDup (map var_of nr') ->
  expands_to input g nr ->
  (forall u, In u (keys values) -> ~ In u (map var_of nr) ->
             fresh_in (nonterminal u) g) ->
  expands_to input g' nr' /\
  (forall t, In t nr' -> from_record values t) /\
  (forall u, In u (keys values) -> ~ In u (map var_of nr') ->
             fresh_in (nonterminal u) g').
Proof.
  induction rest as [|[var value] rest IH];
    intros g g' nr nr' Hsub Hnd Hdisj Hrec Hscan Hnr' Hexp Hfresh.
  - injection Hscan as <- <-; auto.
  - assert (Hin : In (var, value) values) by (apply Hsub; left; reflexivity).
    destruct (names_values HN var value Hin) as [Hv _].
    pose proof (in_keys _ _ _ Hin) as Hvar.
    cbn [scan_values] in Hscan; rewrite scan_grammar_spec in Hscan by exact Hv.
    assert (Hvals : forall v1 v2, In (v1, v2) rest -> v2 <> []).
    { intros v1 v2 H; apply (names_values HN v1 v2); apply Hsub; right; auto. }
    destruct (scan_values_triples rest _ _ _ _ Hvals Hscan)
      as (_ & extra & Eextra & _).
    assert (Hm : count_in value (alternatives g) <= 1).
    { rewrite Eextra, <- app_assoc, !map_app, map_repeat in Hnr'.
      eapply nodup_repeat; exact Hnr'. }
    simpl in Hnd; apply NoDup_cons_iff in Hnd as [Hvar_rest Hnd'].
    assert (Hnew : ~ In var (map var_of nr)).
    { intros H; apply in_map_iff in H as (t & <- & Ht).
      apply (Hdisj t Ht); left; reflexivity. }
    destruct (count_in value (alternatives g)) as [|[|m]] eqn:Ec; [| |lia].
    + (* the value occurs nowhere: nothing changes *)
      cbn [repeat] in Hscan; rewrite app_nil_r in Hscan.
      rewrite map_alts_id in Hscan.
      * apply (IH g g' nr nr');
          [ intros e He; apply Hsub; right; exact He
          | exact Hnd'
          | intros t Ht H; apply (Hdisj t Ht); right; exact H
          | exact Hrec | exact Hscan | exact Hnr' | exact Hexp
          | exact Hfresh ].
      * eapply Forall_impl; [|apply count_in_zero; exact Ec].
        intros a Ha; apply replace_notin; assumption.
    + (* the value occurs in one alternative *)
      cbn [repeat] in Hscan.
      apply (IH (map_alts (replace value (nonterminal var)) g) g'
               (nr ++ [triple_of var value]) nr');
        [ intros e He; apply Hsub; right; exact He
        | exact Hnd' | | | exact Hscan | exact Hnr' | | ].
      * intros t Ht H; apply in_app_or in Ht as [Ht|[<-|[]]].
        -- apply (Hdisj t Ht); right; exact H.
        -- apply Hvar_rest; exact H.
      * intros t Ht; apply in_app_or in Ht as [Ht|[<-|[]]]; auto.
        exists var, value; auto.
      * apply substitute_expands; auto.
      * intros u Hu Hnot.
        rewrite map_app in Hnot; cbn [map] in Hnot.
        apply substitute_fresh; auto.
        -- intros ->; apply Hnot; apply in_or_app; right; left; reflexivity.
        -- apply Hfresh; auto.
           intros H; apply Hnot; apply in_or_app; left; exact H.
Qed.

End RoundTrip.

Section RoundTripLoop.

Lemma str_mem_spec (x : str) (l : list str) : str_mem x l = true <-> In x l.
Proof.
  unfold str_mem; rewrite existsb_exists; split.
  - intros (y & Hy & E); apply str_eqb_eq in E; subst; exact Hy.
  - intros H; exists x; split; [exact H|apply str_eqb_refl].
Qed.

Lemma distinct_NoDup (l : list str) : distinct l = true <-> NoDup l.
Proof.
  induction l as [|x l IH]; simpl; split; intros H; try constructor; auto.
  - apply andb_true_iff in H as [H _]; intros Hin.
    apply str_mem_spec in Hin; rewrite Hin in H; discriminate.
  - apply andb_true_iff in H as [_ H]; apply IH; exact H.
  - apply NoDup_cons_iff in H as [H1 H2]; apply andb_true_iff; split.
    + destruct (str_mem x l) eqn:E; [|reflexivity].
      apply str_mem_spec in E; contradiction.
    + apply IH; exact H2.
Qed.

Lemma NoDup_map_injective {A B} (f : A -> B) (l : list A) (u w : A) :
  NoDup (map f l) -> In u l -> In w l -> f u = f w -> u = w.
Proof.
  induction l as [|x l IH]; simpl; intros Hn Hu Hw E; [contradiction|].
  apply NoDup_cons_iff in Hn as [Hx Hn].
  destruct Hu as [->|Hu], Hw as [->|Hw]; auto.
  - exfalso; apply Hx; rewrite E; apply in_map; exact Hw.
  - exfalso; apply Hx; rewrite <- E; apply in_map; exact Hu.
Qed.

Lemma expands_to_start (input : str) (g : grammar) :
  expands_to input g [] -> expand_start g = Some input.
Proof.
  intros (a0 & rules & -> & Hs & He); simpl in He; rewrite app_nil_r in He.
  unfold expand_start; rewrite str_eqb_refl, Hs, He; reflexivity.
Qed.

Lemma alternatives_app (a b : grammar) :
  alternatives (a ++ b) = alternatives a ++ alternatives b.
Proof. apply flat_map_app. Qed.

Lemma single_rule_of (nr : list triple) :
  forallb (fun r => single (snd r)) (map rule_of nr) = true.
Proof. induction nr as [|t nr IH]; [reflexivity|exact IH]. Qed.

Variable input : str.

(** The invariant between two passes carries the round trip to the grammar
    the loop returns. *)
Lemma extract_loop_roundtrip (fuel : nat) :
  forall (values : dict str) (g g_final : grammar),
  Names input values ->
  (forall u, In u (keys values) -> ~ In (nonterminal u) (keys g)) ->
  expands_to input g [] ->
  (forall u, In u (keys values) -> fresh_in (nonterminal u) g) ->
  outcome (extract_loop fuel values g) = Ok g_final ->
  expand_start g_final = Some input.
Proof.
  induction fuel as [|fuel IH]; intros values g g_final HN Hkeys Hexp Hfresh Hout.
  - discriminate.
  - cbn [extract_loop] in Hout.
    destruct (scan_values values g []) as [g' nr] eqn:Hscan.
    assert (Hvals : forall v1 v2, In (v1, v2) values -> v2 <> []).
    { intros v1 v2 H; apply (names_values HN v1 v2 H). }
    destruct (scan_values_triples values g g' [] nr Hvals Hscan)
      as (Hkg & _).
    assert (Hpass : NoDup (map var_of nr) ->
              expands_to input g' nr /\
              (forall t, In t nr -> from_record values t) /\
              (forall u, In u (keys values) -> ~ In u (map var_of nr) ->
                         fresh_in (nonterminal u) g')).
    { intros Hnd.
      apply (scan_values_invariant input values HN values g g' [] nr);
        [ auto | exact (names_nodup HN) | intros t [] | intros t []
        | exact Hscan | exact Hnd | exact Hexp
        | intros u Hu _; apply Hfresh; exact Hu ]. }
    destruct nr as [|t nr].
    + cbn [outcome] in Hout; injection Hout as <-.
      apply expands_to_start; apply Hpass; constructor.
    + destruct (promote (t :: nr) g' values) as [[[e|] g''] values'] eqn:Hp;
        [discriminate|].
      cbn [one_more_pass outcome] in Hout.
      pose proof (promote_ok_nodup _ _ _ _ _ (names_nodup HN) Hp) as Hnd.
      destruct (Hpass Hnd) as (Hexp' & Hrec & Hfresh').
      assert (Hkey_of : forall t', In t' (t :: nr) ->
                snd (fst t') = nonterminal (var_of t') /\
                In (var_of t') (keys values)).
      { intros t' Ht'; destruct (Hrec t' Ht') as (var & value & Hin & ->).
        split; [reflexivity|]; apply (in_keys var value); exact Hin. }
      assert (Hkeys_nd : NoDup (map (fun t' => snd (fst t')) (t :: nr))).
      { clear - Hnd Hkey_of HN.
        induction (t :: nr) as [|t0 l IHl]; [constructor|].
        simpl in Hnd |- *; apply NoDup_cons_iff in Hnd as [Hn1 Hn2].
        constructor.
        - intros Hin; apply in_map_iff in Hin as (t1 & E & Ht1).
          apply Hn1.
          destruct (Hkey_of t0 (or_introl eq_refl)) as [E0 K0].
          destruct (Hkey_of t1 (or_intror Ht1)) as [E1 K1].
          rewrite E0, E1 in E.
          rewrite <- (@names_inj input values HN _ _ K1 K0 E).
          apply in_map; exact Ht1.
        - apply IHl; auto; intros t' Ht'; apply Hkey_of; right; exact Ht'. }
      assert (Hkeys_new : forall t', In t' (t :: nr) ->
                ~ In (snd (fst t')) (keys g')).
      { intros t' Ht'; destruct (Hkey_of t' Ht') as [-> K].
        rewrite Hkg; apply Hkeys; exact K. }
      destruct (promote_ok_spec _ _ _ _ _ (names_nodup HN) Hkeys_nd Hkeys_new Hp)
        as (-> & Hnd' & Hsub & Hgone & Hkept).
      assert (Hsubk : forall u, In u (keys values') -> In u (keys values)).
      { intros u Hu; apply in_map_iff in Hu as ([u' v'] & <- & Hu).
        apply (in_keys u' v'); apply Hsub; exact Hu. }
      assert (Hnotpending : forall u, In u (keys values') ->
                ~ In u (map var_of (t :: nr))).
      { intros u Hu; apply in_map_iff in Hu as ([u' v'] & <- & Hu).
        apply (Hgone _ Hu). }
      apply (IH values' (g' ++ map rule_of (t :: nr)) g_final); auto.
      * constructor; auto.
        -- intros var Hvar; apply (names_token HN); auto.
        -- intros u w Hu Hw; apply (@names_inj input values HN); auto.
        -- intros var Hvar; apply (names_input HN); auto.
        -- intros var value Hin; apply (names_values HN var); auto.
      * intros u Hu Hin.
        unfold keys in Hin; rewrite map_app in Hin.
        apply in_app_or in Hin as [Hin|Hin].
        -- rewrite <- Hkg in Hkeys; apply (Hkeys u); auto.
        -- rewrite map_map in Hin.
           apply in_map_iff in Hin as (t' & E & Ht').
           destruct (Hkey_of t' Ht') as [E' K]; cbn [rule_of fst] in E.
           rewrite E' in E.
           apply (Hnotpending u Hu).
           rewrite <- (@names_inj input values HN _ _ K (Hsubk u Hu) E).
           apply in_map; exact Ht'.
      * destruct Hexp' as (a0 & rules & -> & Hs & He).
        exists a0, (rules ++ map rule_of (t :: nr)).
        split; [reflexivity|]; split.
        -- rewrite forallb_app, Hs, single_rule_of; reflexivity.
        -- simpl map at 2; rewrite app_nil_r; exact He.
      * intros u Hu; unfold fresh_in; rewrite alternatives_app.
        apply Forall_app; split.
        -- apply Hfresh'; auto.
        -- apply (pending_no_token input values HN); auto.
Qed.

Lemma well_named_Names (values : dict str) :
  NoDup (keys values) ->
  (forall var s, In (var, s) values ->
                 2 <= length s /\ str_in s input = true) ->
  well_named values input = true ->
  Names input values /\
  (forall u, In u (keys values) -> nonterminal u <> START_SYMBOL).
Proof.
  intros Hnd Hq Hw; unfold well_named in Hw.
  apply andb_true_iff in Hw as [Hw H3]; apply andb_true_iff in Hw as [H1 H2].
  rewrite forallb_forall in H1, H3.
  apply distinct_NoDup in H2; apply NoDup_cons_iff in H2 as [H2a H2b].
  split; [constructor|]; auto.
  - intros var Hvar; apply nonterminal_token; auto.
  - intros u w Hu Hw E; eapply NoDup_map_injective; eauto.
  - intros var Hvar; specialize (H3 var Hvar).
    destruct (str_in (nonterminal var) input); [discriminate|reflexivity].
  - intros var value Hin; destruct (Hq var value Hin) as [Hl Hs].
    split; [|exact Hs]; intros ->; simpl in Hl; lia.
  - intros u Hu E; apply H2a; rewrite <- E; apply in_map; exact Hu.
Qed.

End RoundTripLoop.

(** * The claims of the specification *)

Lemma get_grammar_run (function : Callable) (input : str) (st : State) :
  get_grammar function input st =
  match snd (function input) with
  | None =>
      (outcome (extract_loop (S (length (traced input (fst (function input)))))
                  (traced input (fst (function input)))
                  [(START_SYMBOL, [input])]),
       mkState
         (remaining
            (extract_loop (S (length (traced input (fst (function input)))))
               (traced input (fst (function input)))
               [(START_SYMBOL, [input])]))
         (Some input) None)
  | Some tag =>
      (Raise (Raised tag),
       mkState (traced input (fst (function input))) (Some input)
         (Some Traceit))
  end.
Proof.
  unfold get_grammar, bind; rewrite trace_function_run.
  destruct (snd (function input)); [reflexivity|].
  cbv zeta; unfold set_the_values; cbn [the_input trace_hook].
  destruct (outcome _); reflexivity.
Qed.

(** ** C1 *)

(** C1, amended: for a call made while no hook is installed, when the names
    of the trace record are well named (no name contains an angle bracket,
    the nonterminals of different names, which are their lower-case forms
    in angle brackets, differ and differ from the start symbol, and no
    nonterminal is already text of the input), the grammar [get_grammar]
    returns begins with the start rule, has one alternative per rule, and
    inlining its rules into the start alternative, the rule created last
    first, gives back exactly the input. *)
Theorem get_grammar_roundtrip (function : Callable) (input : str)
    (st st1 st' : State) (values : dict str) (g : grammar) :
  trace_hook st = None ->
  trace_function function input st = (Ok values, st1) ->
  well_named values input = true ->
  get_grammar function input st = (Ok g, st') ->
  expand_start g = Some input.
Proof.
  intros _ Ht Hw Hg.
  rewrite trace_function_run in Ht; rewrite get_grammar_run in Hg.
  destruct (snd (function input)); [discriminate|].
  injection Ht as <- _.
  apply (f_equal fst) in Hg; cbn [fst] in Hg.
  destruct (traced_invariant input (fst (function input))) as [Hnd Hq].
  destruct (well_named_Names input _ Hnd Hq Hw) as [HN Hstart].
  eapply (extract_loop_roundtrip input); [exact HN| | | |exact Hg].
  - intros u Hu [E|[]]; apply (Hstart u Hu); symmetry; exact E.
  - exists input, []; repeat split; reflexivity.
  - intros u Hu; unfold fresh_in; cbn [alternatives flat_map snd app].
    repeat constructor; apply (names_input HN u Hu).
Qed.

Lemma get_grammar_roundtrip_witness :
  exists g st',
    get_grammar url_splitter (L "http://a.org/#top") initial_state
      = (Ok g, st') /\
    g = [(L "<start>", [L "<url>"]);
         (L "<url>", [L "<scheme>://<netloc>/#<fragment>"]);
         (L "<scheme>", [L "http"]);
         (L "<netloc>", [L "a.org"]);
         (L "<fragment>", [L "top"])] /\
    expand_start g = Some (L "http://a.org/#top").
Proof.
  eexists; eexists; split; [vm_compute; reflexivity|].
  split; [reflexivity|].
  apply (get_grammar_roundtrip url_splitter (L "http://a.org/#top")
           initial_state
           (snd (trace_function url_splitter (L "http://a.org/#top")
                   initial_state))
           (snd (get_grammar url_splitter (L "http://a.org/#top")
                   initial_state))
           (traced (L "http://a.org/#top")
              (fst (url_splitter (L "http://a.org/#top"))))).
  - reflexivity.
  - vm_compute; reflexivity.
  - vm_compute; reflexivity.
  - vm_compute; reflexivity.
Defined.

(** The names [É] and [é] (code points 201 and 233) clash like [A] and [a]:
    both get the nonterminal [<é>], and [well_named] rejects the record. *)
Example accented_names_clash :
  nonterminal [ascii_of_nat 201] = nonterminal [ascii_of_nat 233] /\
  nonterminal [ascii_of_nat 201]
    = ["<"%char; ascii_of_nat 233; ">"%char] /\
  well_named [([ascii_of_nat 201], L "ab"); ([ascii_of_nat 233], L "cd")]
    (L "abcd") = false.
Proof. repeat split; vm_compute; reflexivity. Qed.

(** C1, as stated, fails: the names [A] and [a] both become [<a>], the
    second rule overwrites the first, and the returned grammar expands to
    ["cdcd"], not to the input ["abcd"]. *)
Lemma roundtrip_counterexample :
  exists st',
    get_grammar name_clash (L "abcd") initial_state
      = (Ok [(L "<start>", [L "<a><a>"]); (L "<a>", [L "cd"])], st') /\
    expand_start [(L "<start>", [L "<a><a>"]); (L "<a>", [L "cd"])]
      = Some (L "cdcd") /\
    expand_start [(L "<start>", [L "<a><a>"]); (L "<a>", [L "cd"])]
      <> Some (L "abcd").
Proof.
  eexists; split; [vm_compute; reflexivity|].
  split; [vm_compute; reflexivity|].
  vm_compute; discriminate.
Qed.

(** ** C2 *)

Lemma prefix_app_short (p a b : str) :
  prefix p (a ++ b) = true -> length p <= length a -> prefix p a = true.
Proof.
  revert a; induction p as [|x p IH]; intros a H Hl; [reflexivity|].
  destruct a as [|y a]; simpl in Hl; [lia|].
  simpl in H |- *; apply andb_true_iff in H as [H1 H2].
  rewrite H1; simpl; apply IH; [exact H2|lia].
Qed.

Lemma length_removelast_value (value : str) :
  value <> [] -> length value = S (length (removelast value)).
Proof.
  intros Hv; rewrite (app_removelast_last "<"%char Hv) at 1.
  rewrite length_app; simpl; lia.
Qed.

Lemma prefix_before_value (value s t : str) (c : ascii) :
  value <> [] ->
  prefix value (c :: s ++ value ++ t) = true ->
  prefix value (c :: s ++ removelast value) = true.
Proof.
  intros Hv H.
  assert (E : c :: s ++ value ++ t =
              (c :: s ++ removelast value) ++ (last value "<"%char :: t)).
  { rewrite (app_removelast_last "<"%char Hv) at 1.
    simpl; rewrite <- !app_assoc; reflexivity. }
  rewrite E in H; apply prefix_app_short in H; [exact H|].
  rewrite (length_removelast_value value Hv); simpl; rewrite length_app; lia.
Qed.

(** The scan passes over a segment in which [value] starts nowhere, and
    replaces the occurrence that follows it. *)
Lemma replace_segment (value new s t : str) :
  value <> [] ->
  str_in value (s ++ removelast value) = false ->
  replace value new (s ++ value ++ t) = s ++ new ++ replace value new t.
Proof.
  intros Hv; induction s as [|c s IH]; intros Hs.
  - simpl; rewrite (replace_match value new Hv) by apply prefix_app.
    rewrite skipn_app, skipn_all, Nat.sub_diag; reflexivity.
  - change ((c :: s) ++ removelast value) with (c :: s ++ removelast value)
      in Hs.
    apply str_in_cons_false in Hs as [Hp Hs].
    change ((c :: s) ++ value ++ t) with (c :: s ++ value ++ t).
    assert (E : prefix value (c :: s ++ value ++ t) = false).
    { destruct (prefix value (c :: s ++ value ++ t)) eqn:E; [|reflexivity].
      apply prefix_before_value in E; [congruence|exact Hv]. }
    rewrite (replace_nomatch value new Hv _ _ E), IH by exact Hs.
    reflexivity.
Qed.

Lemma replace_join (value new : str) (segs : list str) :
  value <> [] -> separated value segs = true ->
  replace value new (join value segs) = join new segs.
Proof.
  intros Hv; induction segs as [|s [|s' rest] IH]; intros Hs.
  - apply replace_nil; exact Hv.
  - simpl in Hs |- *; apply replace_notin; [exact Hv|].
    destruct (str_in value s); [discriminate|reflexivity].
  - cbn [separated] in Hs; apply andb_true_iff in Hs as [H1 H2].
    cbn [join] in IH |- *.
    rewrite replace_segment, IH; auto.
    destruct (str_in value (s ++ removelast value)); [discriminate|reflexivity].
Qed.

(** C2, amended: when a traced value occurs in an alternative, every
    occurrence of it that a scan from the left finds (occurrences do not
    overlap) is replaced by the nonterminal of the variable, which is the
    variable name in lower case between angle brackets; no occurrence is left
    as literal text, and one triple is recorded. *)
Theorem substitution_replaces_every_occurrence (var value : str)
    (segs : list str) (new_rules : list triple) :
  value <> [] -> separated value segs = true -> 2 <= length segs ->
  scan_alternatives var value [join value segs] new_rules =
  ([join (L "<" ++ lower var ++ L ">") segs],
   new_rules ++ [(var, L "<" ++ lower var ++ L ">", value)]).
Proof.
  intros Hv Hs Hl; cbn [scan_alternatives].
  assert (Hin : str_in value (join value segs) = true).
  { destruct segs as [|s [|s' rest]]; simpl in Hl; try lia.
    cbn [join]; apply str_in_spec; exists s, (join value (s' :: rest)).
    reflexivity. }
  rewrite Hin, replace_join by assumption; reflexivity.
Qed.

Lemma substitution_replaces_every_occurrence_witness :
  scan_alternatives (L "Path") (L "ab") [L "abcabab"] [] =
  ([L "<path>c<path><path>"], [(L "Path", L "<path>", L "ab")]).
Proof.
  apply (substitution_replaces_every_occurrence (L "Path") (L "ab")
           [L ""; L "c"; L ""; L ""] []).
  - discriminate.
  - reflexivity.
  - simpl; lia.
Defined.

(** C2, as stated, fails: with [x = "ab"] traced on the input ["abab"] the
    start alternative becomes ["<x><x>"]; replacing the first occurrence
    only would give ["<x>ab"]. *)
Lemma first_occurrence_counterexample :
  (exists st',
     get_grammar binds_x (L "abab") initial_state
       = (Ok [(L "<start>", [L "<x><x>"]); (L "<x>", [L "ab"])], st')) /\
  scan_alternatives (L "x") (L "ab") [L "abab"] []
    = ([L "<x><x>"], [(L "x", L "<x>", L "ab")]) /\
  replace_first (L "ab") (nonterminal (L "x")) (L "abab") = L "<x>ab" /\
  replace (L "ab") (nonterminal (L "x")) (L "abab")
    <> replace_first (L "ab") (nonterminal (L "x")) (L "abab").
Proof.
  split; [eexists; vm_compute; reflexivity|].
  split; [vm_compute; reflexivity|].
  split; [vm_compute; reflexivity|].
  vm_compute; discriminate.
Qed.

(** ** C3 *)

(** C3 fails on the code: when a rule of [g2] brings two alternatives that
    [g1]'s rule lacks, each one is appended to the rule as it was before the
    loop ([repl1] is read once), so only the last one survives.  Merging
    [{<a>: [x]}] with [{<a>: [y, z]}] gives [{<a>: [x, z]}]: [y] is
    lost. *)
Theorem merge_grammars_loses_alternative :
  merge_grammars [(L "<a>", [L "x"])] [(L "<a>", [L "y"; L "z"])]
    = [(L "<a>", [L "x"; L "z"])] /\
  dict_get (merge_grammars [(L "<a>", [L "x"])] [(L "<a>", [L "y"; L "z"])])
    (L "<a>") = Some [L "x"; L "z"] /\
  ~ In (L "y") [L "x"; L "z"].
Proof.
  split; [vm_compute; reflexivity|].
  split; [vm_compute; reflexivity|].
  intros [H|[H|[]]]; discriminate H.
Qed.

(** ** C4 *)

Lemma fold_record_other (inp : str) (bindings : list (str * PyValue))
    (d : dict str) (var : str) :
  ~ In var (keys bindings) ->
  dict_get (fold_left (record inp) bindings d) var = dict_get d var.
Proof.
  revert d; induction bindings as [|[var0 value0] rest IH]; intros d Hn.
  - reflexivity.
  - simpl in Hn |- *; rewrite IH by tauto.
    unfold record; cbn [fst snd].
    destruct (qualifies inp value0); [|reflexivity].
    apply dict_get_set_other; intros E; apply Hn; left; symmetry; exact E.
Qed.

Lemma fold_record_lookup (inp : str) (frame : Frame) (d : dict str)
    (var : str) (value : PyValue) :
  NoDup (keys frame) -> In (var, value) frame ->
  dict_get (fold_left (record inp) frame d) var =
  match qualifies inp value with
  | Some s => Some s
  | None => dict_get d var
  end.
Proof.
  revert d; induction frame as [|[var0 value0] rest IH]; intros d Hn Hin.
  - destruct Hin.
  - simpl in Hn; apply NoDup_cons_iff in Hn as [Hn1 Hn2].
    destruct Hin as [E|Hin].
    + injection E as -> ->; simpl.
      rewrite fold_record_other by exact Hn1.
      unfold record; cbn [fst snd].
      destruct (qualifies inp value); [apply dict_get_set_same|reflexivity].
    + simpl; rewrite IH by assumption.
      destruct (qualifies inp value); [reflexivity|].
      unfold record; cbn [fst snd].
      destruct (qualifies inp value0); [|reflexivity].
      apply dict_get_set_other; intros E; subst var0.
      apply Hn1; apply in_map_iff; exists (var, value); auto.
Qed.

(** C4: during a traced call ([the_input] is set), [traceit] on a frame
    raises nothing, and for each binding of the frame: if the value is a
    string of length at least 2 that occurs in the input, the trace record
    maps the name to it; otherwise the binding is not recorded, the entry of
    that name is what it was before; in particular a string of length 1 is
    not recorded. *)
Theorem traceit_records_iff (frame : Frame) (st : State) (inp : str) :
  the_input st = Some inp ->
  distinct (keys frame) = true ->
  exists st',
    traceit frame st = (Ok tt, st') /\
    forall var value, In (var, value) frame ->
      (forall s, value = VStr s -> 2 <= length s -> str_in s inp = true ->
         dict_get (the_values st') var = Some s) /\
      ((forall s, value = VStr s -> length s < 2 \/ str_in s inp = false) ->
         dict_get (the_values st') var = dict_get (the_values st) var) /\
      (forall s, value = VStr s -> length s = 1 ->
         dict_get (the_values st') var = dict_get (the_values st) var).
Proof.
  intros Hi Hd; apply distinct_NoDup in Hd.
  eexists; split; [apply (traceit_run frame st inp Hi)|].
  intros var value Hin; cbn [the_values].
  rewrite (fold_record_lookup inp frame _ var value Hd Hin).
  assert (Hnone : (forall s, value = VStr s ->
                     length s < 2 \/ str_in s inp = false) ->
                  qualifies inp value = None).
  { intros H; destruct (qualifies inp value) as [s|] eqn:E; [|reflexivity].
    apply qualifies_spec in E as (E1 & E2 & E3).
    destruct (H s E1) as [H'|H']; [lia|congruence]. }
  split; [|split].
  - intros s E Hl Hs.
    assert (Hq : qualifies inp value = Some s)
      by (apply qualifies_spec; auto).
    rewrite Hq; reflexivity.
  - intros H; rewrite (Hnone H); reflexivity.
  - intros s E Hl; rewrite Hnone; [reflexivity|].
    intros s' E'; left; rewrite E in E'; injection E' as <-; lia.
Qed.

Lemma traceit_records_iff_witness :
  exists st',
    traceit [(L "p", VStr (L "ab")); (L "q", VStr (L "a"));
             (L "r", VOther 3); (L "t", VStr (L "zz"))]
      (mkState [(L "q", L "bc")] (Some (L "abc")) (Some Traceit))
      = (Ok tt, st') /\
    dict_get (the_values st') (L "p") = Some (L "ab") /\
    dict_get (the_values st') (L "q") = Some (L "bc") /\
    dict_get (the_values st') (L "t") = None.
Proof.
  destruct (traceit_records_iff
              [(L "p", VStr (L "ab")); (L "q", VStr (L "a"));
               (L "r", VOther 3); (L "t", VStr (L "zz"))]
              (mkState [(L "q", L "bc")] (Some (L "abc")) (Some Traceit))
              (L "abc") eq_refl eq_refl) as (st' & Hrun & Hrec).
  exists st'; split; [exact Hrun|].
  split; [|split].
  - apply (Hrec (L "p") (VStr (L "ab"))); simpl; auto.
  - destruct (Hrec (L "q") (VStr (L "a"))) as (_ & _ & H); [simpl; auto|].
    apply (H (L "a")); reflexivity.
  - destruct (Hrec (L "t") (VStr (L "zz"))) as (_ & H & _); [simpl; auto|].
    apply H; intros s E; injection E as <-; right; reflexivity.
Defined.

(** ** C5 *)

(** After a callable that raises, the exception reaches the caller of
    [trace_function] and the hook is still installed: [sys.settrace(None)]
    is not reached. *)
Lemma trace_function_raise (function : Callable) (input : str) (st : State)
    (tag : nat) :
  snd (function input) = Some tag ->
  exists st',
    trace_function function input st = (Raise (Raised tag), st') /\
    trace_hook st' = Some Traceit.
Proof.
  intros H; rewrite trace_function_run, H; eexists; split; reflexivity.
Qed.

Lemma trace_function_return (function : Callable) (input : str) (st : State) :
  snd (function input) = None ->
  exists values st',
    trace_function function input st = (Ok values, st') /\
    trace_hook st' = None.
Proof.
  intros H; rewrite trace_function_run, H; eexists; eexists; split; reflexivity.
Qed.

(** C5 fails on the code: the callable [raises] ends with an exception; it
    reaches the caller of [trace_function], but the hook is still
    [traceit], not none, when it does. *)
Theorem exception_leaves_hook_installed :
  exists st',
    trace_function raises (L "abab") initial_state = (Raise (Raised 7), st') /\
    trace_hook st' = Some Traceit /\
    trace_hook st' <> None.
Proof.
  eexists; split; [vm_compute; reflexivity|].
  split; [reflexivity|discriminate].
Qed.

(** ** C6 *)

(** A pass that substitutes and is promoted removes a variable from the
    trace record, and nothing ever adds one. *)
Lemma substituting_pass_shrinks_record (values values' : dict str)
    (g g' g'' : grammar) (new_rules : list triple) :
  scan_values values g [] = (g', new_rules) ->
  new_rules <> [] ->
  promote new_rules g' values = (None, g'', values') ->
  length values' < length values.
Proof.
  intros _ Hne Hp; apply promote_ok_length in Hp.
  destruct new_rules; [contradiction|simpl in Hp; lia].
Qed.

(** With enough fuel the loop does not depend on the fuel. *)
Lemma extract_loop_fuel (fuel1 : nat) :
  forall (fuel2 : nat) (values : dict str) (g : grammar),
  length values < fuel1 -> length values < fuel2 ->
  extract_loop fuel1 values g = extract_loop fuel2 values g.
Proof.
  induction fuel1 as [|fuel1 IH]; intros fuel2 values g H1 H2; [lia|].
  destruct fuel2 as [|fuel2]; [lia|].
  cbn [extract_loop].
  destruct (scan_values values g []) as [g' nr].
  destruct nr as [|t nr]; [reflexivity|].
  destruct (promote (t :: nr) g' values) as [[[e|] g''] values'] eqn:Hp;
    [reflexivity|].
  apply promote_ok_length in Hp; simpl in Hp.
  rewrite (IH fuel2) by lia; reflexivity.
Qed.

Lemma extract_loop_passes (fuel : nat) :
  forall (values : dict str) (g : grammar),
  length values < fuel ->
  passes (extract_loop fuel values g) <= length values /\
  outcome (extract_loop fuel values g) <> Raise OutOfFuel.
Proof.
  induction fuel as [|fuel IH]; intros values g Hl; [lia|].
  cbn [extract_loop].
  destruct (scan_values values g []) as [g' nr] eqn:Hs.
  destruct nr as [|t nr]; [simpl; split; [lia|discriminate]|].
  destruct (promote (t :: nr) g' values) as [[[e|] g''] values'] eqn:Hp.
  - apply promote_fail_KeyError in Hp as (w & -> & _ & _).
    cbn [passes outcome]; split; [|discriminate].
    destruct values; [injection Hs as _ Hs; discriminate|simpl; lia].
  - apply promote_ok_length in Hp; simpl in Hp.
    destruct (IH values' g'') as [Hpass Hout]; [lia|].
    cbn [one_more_pass passes outcome]; split; [lia|exact Hout].
Qed.

(** C6: if the trace of the callable on the input has [k] variables, the
    loop of [get_grammar] makes at most [k] passes in which something is
    substituted and comes to an end: with any budget above [k] it stops
    before the budget is used up, with the same result. *)
Theorem extraction_terminates_within_k_passes (function : Callable)
    (input : str) (st st1 : State) (values : dict str) (fuel : nat) :
  trace_function function input st = (Ok values, st1) ->
  length values < fuel ->
  passes (extract_loop fuel values [(START_SYMBOL, [input])])
    <= length values /\
  outcome (extract_loop fuel values [(START_SYMBOL, [input])])
    <> Raise OutOfFuel /\
  extract_loop fuel values [(START_SYMBOL, [input])] =
  extract_loop (S (length values)) values [(START_SYMBOL, [input])].
Proof.
  intros _ Hl.
  destruct (extract_loop_passes fuel values [(START_SYMBOL, [input])] Hl)
    as [H1 H2].
  split; [exact H1|]; split; [exact H2|].
  apply extract_loop_fuel; lia.
Qed.

Lemma extraction_terminates_within_k_passes_witness :
  passes (extract_loop 9
            (traced (L "http://a.org/#top")
               (fst (url_splitter (L "http://a.org/#top"))))
            [(START_SYMBOL, [L "http://a.org/#top"])]) <= 4 /\
  outcome (extract_loop 9
             (traced (L "http://a.org/#top")
                (fst (url_splitter (L "http://a.org/#top"))))
             [(START_SYMBOL, [L "http://a.org/#top"])])
    <> Raise OutOfFuel.
Proof.
  destruct (extraction_terminates_within_k_passes url_splitter
              (L "http://a.org/#top") initial_state
              (snd (trace_function url_splitter (L "http://a.org/#top")
                      initial_state))
              (traced (L "http://a.org/#top")
                 (fst (url_splitter (L "http://a.org/#top"))))
              9) as (H1 & H2 & _).
  - vm_compute; reflexivity.
  - vm_compute; lia.
  - split; [exact H1|exact H2].
Defined.

Lemma get_grammar_never_out_of_fuel (function : Callable) (input : str)
    (st : State) :
  fst (get_grammar function input st) <> Raise OutOfFuel.
Proof.
  rewrite get_grammar_run; destruct (snd (function input)); [discriminate|].
  cbn [fst]; apply extract_loop_passes; lia.
Qed.

(** ** C7 *)

Lemma fold_record_keep (inp : str) (bindings : list (str * PyValue))
    (d : dict str) (var : str) :
  (forall value, In (var, value) bindings -> qualifies inp value = None) ->
  dict_get (fold_left (record inp) bindings d) var = dict_get d var.
Proof.
  revert d; induction bindings as [|[var0 value0] rest IH]; intros d H.
  - reflexivity.
  - simpl; rewrite IH by (intros value Hin; apply H; right; exact Hin).
    unfold record; cbn [fst snd].
    destruct (qualifies inp value0) as [s|] eqn:E; [|reflexivity].
    apply dict_get_set_other; intros ->.
    rewrite (H value0) in E by (left; reflexivity); discriminate.
Qed.

(** C7: in a traced call made while no hook is installed, when a name is
    observed with a qualifying value and no later observation of that name
    qualifies, whatever frame it is made in, the trace record that
    [trace_function] returns maps the name to that value: earlier values of
    the name, from this frame or another, are overwritten. *)
Theorem last_write_wins (function : Callable) (input : str) (st st' : State)
    (values : dict str) (frames1 frames2 : list Frame)
    (locals1 locals2 : Frame) (var s : str) :
  trace_hook st = None ->
  trace_function function input st = (Ok values, st') ->
  fst (function input) =
    frames1 ++ (locals1 ++ (var, VStr s) :: locals2) :: frames2 ->
  2 <= length s -> str_in s input = true ->
  (forall s', In (var, VStr s') (locals2 ++ concat frames2) ->
              length s' < 2 \/ str_in s' input = false) ->
  dict_get values var = Some s.
Proof.
  intros _ Ht Hf Hl Hs Hlater.
  rewrite trace_function_run in Ht.
  destruct (snd (function input)); [discriminate|].
  injection Ht as <- _; unfold traced; rewrite Hf.
  rewrite concat_app; cbn [concat].
  rewrite <- !app_assoc, fold_left_app, fold_left_app; cbn [app fold_left].
  rewrite fold_record_keep.
  - unfold record at 1; cbn [fst snd].
    assert (Hq : qualifies input (VStr s) = Some s)
      by (apply qualifies_spec; auto).
    rewrite Hq; apply dict_get_set_same.
  - intros value Hin.
    destruct (qualifies input value) as [s'|] eqn:E; [|reflexivity].
    apply qualifies_spec in E as (-> & E2 & E3).
    destruct (Hlater s' Hin) as [H|H]; [lia|congruence].
Qed.

Lemma last_write_wins_witness :
  dict_get (traced (L "abcd") (fst (rebinds (L "abcd")))) (L "part")
    = Some (L "cd").
Proof.
  apply (last_write_wins rebinds (L "abcd") initial_state
           (snd (trace_function rebinds (L "abcd") initial_state))
           (traced (L "abcd") (fst (rebinds (L "abcd"))))
           [[(L "part", VStr (L "ab")); (L "n", VOther 1)]]
           [[(L "part", VStr (L "zz")); (L "part2", VStr (L "c"))]]
           [] [] (L "part") (L "cd")).
  - reflexivity.
  - vm_compute; reflexivity.
  - reflexivity.
  - simpl; lia.
  - reflexivity.
  - intros s' [E|[E|[]]]; [|discriminate E].
    injection E as <-; right; reflexivity.
Defined.

(** ** C8 *)

(** C8: a callable is given by what it shows and how it ends on each input,
    so it is deterministic; called twice in a row on the same input, the
    first time while no hook is installed and whatever the two globals hold,
    [get_grammar] returns the same grammar, or raises the same exception,
    both times. *)
Theorem get_grammar_deterministic (function : Callable) (input : str)
    (st : State) :
  trace_hook st = None ->
  fst (get_grammar function input (snd (get_grammar function input st)))
  = fst (get_grammar function input st).
Proof.
  intros _.
  rewrite (get_grammar_run function input (snd _)).
  rewrite (get_grammar_run function input st).
  destruct (snd (function input)); reflexivity.
Qed.

Lemma get_grammar_deterministic_witness :
  fst (get_grammar url_splitter (L "http://a.org/#top")
         (snd (get_grammar url_splitter (L "http://a.org/#top")
                 (mkState [(L "old", L "zz")] (Some (L "zz")) None))))
  = fst (get_grammar url_splitter (L "http://a.org/#top")
           (mkState [(L "old", L "zz")] (Some (L "zz")) None)) /\
  fst (get_grammar shared_part (L "xabyab")
         (snd (get_grammar shared_part (L "xabyab") initial_state)))
  = fst (get_grammar shared_part (L "xabyab") initial_state).
Proof.
  split.
  - apply (get_grammar_deterministic url_splitter (L "http://a.org/#top")
             (mkState [(L "old", L "zz")] (Some (L "zz")) None)).
    reflexivity.
  - apply (get_grammar_deterministic shared_part (L "xabyab") initial_state).
    reflexivity.
Defined.

(** ** C9 *)

Lemma scan_alternatives_vars (var value : str) (alts : list str)
    (nr : list triple) (t : triple) :
  In t (snd (scan_alternatives var value alts nr)) ->
  In t nr \/ var_of t = var.
Proof.
  revert nr; induction alts as [|repl rest IH]; intros nr; [simpl; auto|].
  cbn [scan_alternatives].
  destruct (str_in value repl).
  - destruct (scan_alternatives var value rest
                (nr ++ [(var, nonterminal var, value)])) as [r n] eqn:E.
    cbn [snd]; intros H.
    specialize (IH (nr ++ [(var, nonterminal var, value)])).
    rewrite E in IH; destruct (IH H) as [H'|H']; [|auto].
    apply in_app_or in H' as [H'|[<-|[]]]; auto.
  - destruct (scan_alternatives var value rest nr) as [r n] eqn:E.
    cbn [snd]; intros H; specialize (IH nr); rewrite E in IH; auto.
Qed.

Lemma scan_grammar_vars (var value : str) (g : grammar) (nr : list triple)
    (t : triple) :
  In t (snd (scan_grammar var value g nr)) -> In t nr \/ var_of t = var.
Proof.
  revert nr; induction g as [|[key alts] rest IH]; intros nr; [simpl; auto|].
  cbn [scan_grammar].
  destruct (scan_alternatives var value alts nr) as [a n1] eqn:E1.
  destruct (scan_grammar var value rest n1) as [r n2] eqn:E2.
  cbn [snd]; intros H.
  specialize (IH n1); rewrite E2 in IH; destruct (IH H) as [H'|H']; [|auto].
  apply (scan_alternatives_vars var value alts nr).
  rewrite E1; exact H'.
Qed.

(** Every triple of a pass is for a variable of the trace record. *)
Lemma scan_values_vars (values : dict str) (g : grammar) (nr : list triple)
    (t : triple) :
  In t (snd (scan_values values g nr)) ->
  In t nr \/ In (var_of t) (keys values).
Proof.
  revert g nr; induction values as [|[var value] rest IH]; intros g nr.
  - simpl; auto.
  - cbn [scan_values].
    destruct (scan_grammar var value g nr) as [g1 n1] eqn:E.
    intros H; destruct (IH g1 n1 H) as [H'|H']; [|right; right; exact H'].
    destruct (scan_grammar_vars var value g nr t) as [H1|H1];
      [rewrite E; exact H'|auto|].
    right; left; symmetry; exact H1.
Qed.

Lemma count_var_app (var : str) (a b : list triple) :
  count_var var (a ++ b) = count_var var a + count_var var b.
Proof. unfold count_var; rewrite filter_app, length_app; reflexivity. Qed.

Lemma count_var_in (var : str) (nr : list triple) :
  In var (map var_of nr) -> 1 <= count_var var nr.
Proof.
  unfold count_var; induction nr as [|t rest IH]; simpl; [tauto|].
  intros [E|H].
  - rewrite E, str_eqb_refl; simpl; lia.
  - destruct (str_eqb (var_of t) var); simpl; [lia|auto].
Qed.

(** The promotion fails at a triple whose variable, if it was in the record
    at all, was deleted for an earlier triple. *)
Lemma promote_fail_second (nr : list triple) :
  forall (g g' : grammar) (values values' : dict str) (e : exn),
  NoDup (keys values) ->
  promote nr g values = (Some e, g', values') ->
  exists pre t post,
    nr = pre ++ t :: post /\ e = KeyError (var_of t) /\
    (In (var_of t) (keys values) -> In (var_of t) (map var_of pre)).
Proof.
  induction nr as [|[[u k] v] rest IH]; intros g g' values values' e Hn Hp.
  - discriminate.
  - cbn [promote] in Hp.
    destruct (dict_del values u) as [d|] eqn:E.
    + pose proof (dict_del_some _ _ _ E) as (_ & _ & Hd).
      destruct (Hd Hn) as (Hnd & Hu & Hkeep).
      destruct (IH _ _ _ _ _ Hnd Hp) as (pre & t & post & -> & -> & Hin).
      exists ((u, k, v) :: pre), t, post; split; [reflexivity|].
      split; [reflexivity|].
      intros Hk; simpl.
      destruct (str_eqb u (var_of t)) eqn:Eu.
      * apply str_eqb_eq in Eu; left; exact Eu.
      * apply str_eqb_neq in Eu; right; apply Hin.
        apply in_map_iff in Hk as (e' & He' & Hk).
        apply in_map_iff; exists e'; split; [exact He'|].
        apply Hkeep; [exact Hk|]; rewrite He'; auto.
    + injection Hp as <- _ _.
      exists [], (u, k, v), rest; split; [reflexivity|].
      split; [reflexivity|].
      intros Hk; apply dict_del_none in E; contradiction.
Qed.

(** C9: if one pass records two triples for one variable, the loop at the
    end of the pass fails at the second triple of some variable, whose entry
    it has already deleted, and the extraction ends with that [KeyError]
    instead of a grammar. *)
Theorem duplicate_triple_raises_KeyError (fuel : nat) (values : dict str)
    (g g' : grammar) (new_rules : list triple) (var : str) :
  distinct (keys values) = true ->
  scan_values values g [] = (g', new_rules) ->
  2 <= count_var var new_rules ->
  exists w,
    outcome (extract_loop (S fuel) values g) = Raise (KeyError w) /\
    2 <= count_var w new_rules.
Proof.
  intros Hd Hs Hc; apply distinct_NoDup in Hd.
  cbn [extract_loop]; rewrite Hs.
  destruct new_rules as [|t nr]; [unfold count_var in Hc; simpl in Hc; lia|].
  destruct (promote_duplicate (t :: nr) g' values var Hd Hc)
    as (e & g1 & v1 & Hp).
  rewrite Hp; cbn [outcome].
  destruct (promote_fail_second _ _ _ _ _ _ Hd Hp)
    as (pre & t' & post & E & -> & Hin).
  exists (var_of t'); split; [reflexivity|].
  assert (Hk : In (var_of t') (keys values)).
  { destruct (scan_values_vars values g [] t') as [[]|H]; [|exact H].
    rewrite Hs, E; cbn [snd]; apply in_or_app; right; left; reflexivity. }
  rewrite E, count_var_app.
  pose proof (count_var_in _ _ (Hin Hk)) as H1.
  unfold count_var at 2; cbn [filter]; rewrite str_eqb_refl; simpl; lia.
Qed.

Lemma duplicate_triple_raises_KeyError_witness :
  exists w,
    outcome (extract_loop 1 [(L "w", L "ab")]
               [(L "<start>", [L "<u><v>"]); (L "<u>", [L "xab"]);
                (L "<v>", [L "yab"])])
      = Raise (KeyError w) /\
    2 <= count_var w [(L "w", L "<w>", L "ab"); (L "w", L "<w>", L "ab")].
Proof.
  apply (duplicate_triple_raises_KeyError 0 [(L "w", L "ab")]
           [(L "<start>", [L "<u><v>"]); (L "<u>", [L "xab"]);
            (L "<v>", [L "yab"])]
           [(L "<start>", [L "<u><v>"]); (L "<u>", [L "x<w>"]);
            (L "<v>", [L "y<w>"])]
           [(L "w", L "<w>", L "ab"); (L "w", L "<w>", L "ab")]
           (L "w")).
  - reflexivity.
  - vm_compute; reflexivity.
  - vm_compute; lia.
Defined.

(** The same on a whole extraction: the value of [w] is part of the values
    of [u] and [v], is hidden by them in the first pass and found in both
    rules in the second. *)
Example get_grammar_KeyError :
  fst (get_grammar shared_part (L "xabyab") initial_state)
    = Raise (KeyError (L "w")).
Proof. vm_compute; reflexivity. Qed.

(** ** C10 *)

(** C10: on an empty sequence of inputs [get_merged_grammar] returns
    [None]; on a sequence of one input it returns the grammar of
    [get_grammar] for that input, as it is, or raises what [get_grammar]
    raises. *)
Theorem get_merged_grammar_short (function : Callable) (input : str)
    (st : State) :
  get_merged_grammar function [] st = (Ok None, st) /\
  get_merged_grammar function [input] st =
  match get_grammar function input st with
  | (Ok g, st') => (Ok (Some g), st')
  | (Raise e, st') => (Raise e, st')
  end.
Proof.
  split; [reflexivity|].
  unfold get_merged_grammar; cbn [merge_inputs]; unfold bind.
  destruct (get_grammar function input st) as [[g|e] st']; reflexivity.
Qed.

(** * Further properties of the code *)

(** ** [traceit] *)

(** X4: called while [the_input] is still [None], [traceit] raises
    [TypeError] as soon as the frame binds a string of two characters or
    more, and otherwise does nothing; the trace record is left as it was
    either way. *)
Theorem traceit_without_input (frame : Frame) (st : State) :
  the_input st = None ->
  traceit frame st =
  (if has_long_str frame then Raise TypeError else Ok tt, st).
Proof.
  intros Hi; induction frame as [|[var value] rest IH]; [reflexivity|].
  cbn [traceit has_long_str existsb snd]; unfold bind.
  destruct value as [s|tag].
  - unfold record_binding.
    destruct (2 <=? length s) eqn:E; cbn [orb].
    + unfold bind, get_the_input; rewrite Hi; reflexivity.
    + unfold ret at 1; exact IH.
  - unfold record_binding, ret at 1; cbn [orb]; exact IH.
Qed.

Lemma traceit_without_input_witness :
  traceit [(L "n", VOther 0); (L "s", VStr (L "ab")); (L "t", VStr (L "cd"))]
    initial_state = (Raise TypeError, initial_state).
Proof.
  apply (traceit_without_input
           [(L "n", VOther 0); (L "s", VStr (L "ab")); (L "t", VStr (L "cd"))]
           initial_state).
  reflexivity.
Defined.

Lemma keys_dict_set_grow {V} (d : dict V) (k : str) (v : V) :
  exists added, keys (dict_set d k v) = keys d ++ added.
Proof.
  destruct (in_keys_dec d k) as [H|H].
  - exists []; rewrite keys_dict_set_in, app_nil_r; auto.
  - exists [k]; rewrite dict_set_fresh by exact H.
    unfold keys; rewrite map_app; reflexivity.
Qed.

Lemma fold_record_keys_grow (inp : str) (bindings : list (str * PyValue))
    (d : dict str) :
  exists added, keys (fold_left (record inp) bindings d) = keys d ++ added.
Proof.
  revert d; induction bindings as [|b rest IH]; intros d.
  - exists []; rewrite app_nil_r; reflexivity.
  - simpl; destruct (IH (record inp d b)) as (added & E); rewrite E.
    unfold record; destruct (qualifies inp (snd b)) as [s|].
    + destruct (keys_dict_set_grow d (fst b) s) as (a1 & E1); rewrite E1.
      exists (a1 ++ added); rewrite app_assoc; reflexivity.
    + exists added; reflexivity.
Qed.

(** X5: during a traced call [traceit] never deletes or reorders entries of
    the trace record: the names it had come first, in the same order, and
    the entry of a name the frame does not bind is unchanged. *)
Theorem traceit_only_adds (frame : Frame) (st st' : State) (inp : str)
    (r : result unit) :
  the_input st = Some inp ->
  traceit frame st = (r, st') ->
  (exists added, keys (the_values st') = keys (the_values st) ++ added) /\
  (forall var, ~ In var (keys frame) ->
     dict_get (the_values st') var = dict_get (the_values st) var).
Proof.
  intros Hi Ht; rewrite (traceit_run frame st inp Hi) in Ht.
  injection Ht as _ <-; cbn [the_values]; split.
  - apply fold_record_keys_grow.
  - intros var Hn; apply fold_record_other; exact Hn.
Qed.

Lemma traceit_only_adds_witness :
  (exists added,
     keys (the_values
             (snd (traceit [(L "p", VStr (L "ab")); (L "q", VStr (L "bc"))]
                     (mkState [(L "q", L "ab"); (L "z", L "abc")]
                        (Some (L "abc")) (Some Traceit)))))
     = [L "q"; L "z"] ++ added) /\
  dict_get
    (the_values
       (snd (traceit [(L "p", VStr (L "ab")); (L "q", VStr (L "bc"))]
               (mkState [(L "q", L "ab"); (L "z", L "abc")]
                  (Some (L "abc")) (Some Traceit)))))
    (L "z") = Some (L "abc").
Proof.
  destruct (traceit_only_adds
              [(L "p", VStr (L "ab")); (L "q", VStr (L "bc"))]
              (mkState [(L "q", L "ab"); (L "z", L "abc")]
                 (Some (L "abc")) (Some Traceit))
              (snd (traceit [(L "p", VStr (L "ab")); (L "q", VStr (L "bc"))]
                      (mkState [(L "q", L "ab"); (L "z", L "abc")]
                         (Some (L "abc")) (Some Traceit))))
              (L "abc") (Ok tt) eq_refl) as [H1 H2].
  - vm_compute; reflexivity.
  - split; [exact H1|].
    apply (H2 (L "z")); intros [H|[H|[]]]; discriminate H.
Defined.

(** ** [trace_function] *)

Lemma fold_record_sound (input : str) (bindings : list (str * PyValue))
    (d : dict str) (P : str -> str -> Prop) :
  (forall var s, In (var, s) d -> P var s) ->
  (forall var s, In (var, VStr s) bindings -> 2 <= length s ->
                 str_in s input = true -> P var s) ->
  forall var s, In (var, s) (fold_left (record input) bindings d) -> P var s.
Proof.
  revert d; induction bindings as [|[var0 value0] rest IH]; intros d Hd Hb.
  - exact Hd.
  - simpl; apply IH.
    + unfold record; cbn [fst snd].
      destruct (qualifies input value0) as [s0|] eqn:E; [|exact Hd].
      intros var s Hin; apply in_dict_set in Hin as [Hin|Hin]; [|auto].
      injection Hin as -> ->; apply qualifies_spec in E as (-> & E2 & E3).
      apply Hb; auto; left; reflexivity.
    + intros var s Hin; apply Hb; right; exact Hin.
Qed.

Lemma fold_record_complete (input : str) (bindings : list (str * PyValue))
    (d : dict str) (var : str) :
  In var (keys d) \/
  (exists s, In (var, VStr s) bindings /\ 2 <= length s /\
             str_in s input = true) ->
  In var (keys (fold_left (record input) bindings d)).
Proof.
  revert d; induction bindings as [|[var0 value0] rest IH]; intros d H.
  - destruct H as [H|(s & [] & _)]; exact H.
  - simpl; apply IH.
    assert (Hgrow : In var (keys d) ->
                    In var (keys (record input d (var0, value0)))).
    { intros Hin; unfold record.
      destruct (qualifies input (snd (var0, value0))) as [s0|]; [|exact Hin].
      destruct (keys_dict_set_grow d (fst (var0, value0)) s0) as (a & ->).
      apply in_or_app; left; exact Hin. }
    destruct H as [H|(s & [E|Hin] & H2 & H3)]; auto.
    + injection E as -> ->; left; unfold record; cbn [fst snd].
      assert (Hq : qualifies input (VStr s) = Some s)
        by (apply qualifies_spec; auto).
      rewrite Hq; apply (in_keys var s); clear.
      induction d as [|[k v] d IHd]; simpl; [left; reflexivity|].
      destruct (str_eqb k var) eqn:E; [|right; exact IHd].
      apply str_eqb_eq in E; subst; left; reflexivity.
    + right; exists s; auto.
Qed.

(** X2: for a call made while no hook is installed, the record that
    [trace_function] returns has no name twice; every entry is a binding
    the callable showed in this call, a string of at least two characters
    that occurs in the input; and a name is in the record exactly when some
    observed binding of it passes that filter.  Nothing of an earlier call
    is in it. *)
Theorem trace_record_sound_and_complete (function : Callable) (input : str)
    (st st' : State) (values : dict str) :
  trace_hook st = None ->
  trace_function function input st = (Ok values, st') ->
  NoDup (keys values) /\
  (forall var s, In (var, s) values ->
     In (var, VStr s) (concat (fst (function input))) /\
     2 <= length s /\ str_in s input = true) /\
  (forall var, In var (keys values) <->
     exists s, In (var, VStr s) (concat (fst (function input))) /\
               2 <= length s /\ str_in s input = true).
Proof.
  intros _ Ht; rewrite trace_function_run in Ht.
  destruct (snd (function input)); [discriminate|].
  injection Ht as <- _.
  assert (Hs : forall var s, In (var, s) (traced input (fst (function input)))
              -> In (var, VStr s) (concat (fst (function input))) /\
                 2 <= length s /\ str_in s input = true).
  { apply fold_record_sound; [intros ? ? []|auto]. }
  split; [apply traced_invariant|]; split; [exact Hs|].
  intros var; split.
  - intros Hin; apply in_map_iff in Hin as ([v s] & <- & Hin).
    exists s; apply Hs; exact Hin.
  - intros H; apply fold_record_complete; right; exact H.
Qed.

Lemma trace_record_sound_and_complete_witness :
  NoDup (keys (traced (L "abcd") (fst (rebinds (L "abcd"))))) /\
  In (L "part") (keys (traced (L "abcd") (fst (rebinds (L "abcd"))))).
Proof.
  destruct (trace_record_sound_and_complete rebinds (L "abcd") initial_state
              (snd (trace_function rebinds (L "abcd") initial_state))
              (traced (L "abcd") (fst (rebinds (L "abcd")))))
    as (H1 & _ & H3).
  - reflexivity.
  - vm_compute; reflexivity.
  - split; [exact H1|].
    apply H3; exists (L "ab"); split; [left; reflexivity|].
    split; [simpl; lia|reflexivity].
Defined.

(** X3: when [trace_function] is called while no hook is installed and the
    callable returns, the hook is uninstalled again, [the_input] is the
    input and the global [the_values] is the record that is returned; that
    record is the same whatever [the_values] and [the_input] held before
    the call. *)
Theorem trace_function_normal_exit (function : Callable) (input : str)
    (st : State) :
  trace_hook st = None ->
  snd (function input) = None ->
  exists values,
    trace_function function input st =
      (Ok values, mkState values (Some input) None) /\
    forall st0, trace_hook st0 = None ->
      trace_function function input st0 =
        (Ok values, mkState values (Some input) None).
Proof.
  intros _ H; exists (traced input (fst (function input))); split;
    [|intros st0 _]; rewrite trace_function_run, H; reflexivity.
Qed.

Lemma trace_function_normal_exit_witness :
  exists values,
    trace_function rebinds (L "abcd")
      (mkState [(L "old", L "zz")] (Some (L "zz")) None) =
      (Ok values, mkState values (Some (L "abcd")) None) /\
    dict_get values (L "old") = None.
Proof.
  destruct (trace_function_normal_exit rebinds (L "abcd")
              (mkState [(L "old", L "zz")] (Some (L "zz")) None)
              eq_refl eq_refl) as (values & H & _).
  exists values; split; [exact H|].
  vm_compute in H; injection H as <-; reflexivity.
Defined.

(** ** [get_grammar] *)

Lemma str_in_length (p s : str) : str_in p s = true -> length p <= length s.
Proof.
  intros H; apply str_in_spec in H as (a & b & ->).
  rewrite !length_app; lia.
Qed.

Lemma fold_record_nothing (input : str) (bindings : list (str * PyValue))
    (d : dict str) :
  (forall b, In b bindings -> qualifies input (snd b) = None) ->
  fold_left (record input) bindings d = d.
Proof.
  revert d; induction bindings as [|b rest IH]; intros d H; [reflexivity|].
  simpl; unfold record at 2; rewrite (H b) by (left; reflexivity).
  apply IH; intros b' Hb'; apply H; right; exact Hb'.
Qed.

(** X6: on an input of fewer than two characters no value can pass the
    filter of the tracer, so for every callable that returns the grammar is
    the start rule alone, with the input as its only alternative, and the
    trace record is empty. *)
Theorem get_grammar_short_input (function : Callable) (input : str)
    (st : State) :
  length input < 2 ->
  snd (function input) = None ->
  get_grammar function input st =
  (Ok [(START_SYMBOL, [input])], mkState [] (Some input) None).
Proof.
  intros Hl Hr; rewrite get_grammar_run, Hr.
  assert (E : traced input (fst (function input)) = []).
  { apply fold_record_nothing; intros [var value] _; cbn [snd].
    destruct (qualifies input value) as [s|] eqn:E; [|reflexivity].
    apply qualifies_spec in E as (_ & E2 & E3).
    apply str_in_length in E3; lia. }
  rewrite E; reflexivity.
Qed.

Lemma get_grammar_short_input_witness :
  get_grammar url_splitter (L "h") initial_state =
  (Ok [(L "<start>", [L "h"])], mkState [] (Some (L "h")) None).
Proof.
  apply (get_grammar_short_input url_splitter (L "h") initial_state).
  - simpl; lia.
  - reflexivity.
Defined.

(** *** The shape of an extracted grammar *)

Lemma scan_alternatives_form (var value : str) (alts : list str)
    (nr : list triple) :
  length (fst (scan_alternatives var value alts nr)) = length alts /\
  forall t, In t (snd (scan_alternatives var value alts nr)) ->
            In t nr \/ t = triple_of var value.
Proof.
  revert nr; induction alts as [|repl rest IH]; intros nr; [simpl; auto|].
  cbn [scan_alternatives].
  destruct (str_in value repl).
  - specialize (IH (nr ++ [(var, nonterminal var, value)])).
    destruct (scan_alternatives var value rest
                (nr ++ [(var, nonterminal var, value)])) as [r n].
    cbn [fst snd] in *; destruct IH as [IH1 IH2]; split; [simpl; lia|].
    intros t Ht; destruct (IH2 t Ht) as [H|H]; [|auto].
    apply in_app_or in H as [H|[<-|[]]]; auto.
  - specialize (IH nr); destruct (scan_alternatives var value rest nr) as [r n].
    cbn [fst snd] in *; destruct IH as [IH1 IH2]; split; [simpl; lia|exact IH2].
Qed.

Lemma scan_grammar_form (var value : str) (g : grammar) (nr : list triple) :
  skeleton (fst (scan_grammar var value g nr)) = skeleton g /\
  forall t, In t (snd (scan_grammar var value g nr)) ->
            In t nr \/ t = triple_of var value.
Proof.
  revert nr; induction g as [|[key alts] rest IH]; intros nr; [simpl; auto|].
  cbn [scan_grammar].
  pose proof (scan_alternatives_form var value alts nr) as [H1 H2].
  destruct (scan_alternatives var value alts nr) as [a n1].
  specialize (IH n1); destruct (scan_grammar var value rest n1) as [r n2].
  cbn [fst snd] in *; destruct IH as [IH1 IH2]; split.
  - unfold skeleton in *; cbn [map fst snd]; rewrite H1, IH1; reflexivity.
  - intros t Ht; destruct (IH2 t Ht) as [H|H]; auto.
Qed.

Lemma scan_values_form (values : dict str) (g : grammar) (nr : list triple) :
  skeleton (fst (scan_values values g nr)) = skeleton g /\
  forall t, In t (snd (scan_values values g nr)) ->
            In t nr \/ from_record values t.
Proof.
  revert g nr; induction values as [|[var value] rest IH]; intros g nr.
  - simpl; auto.
  - cbn [scan_values].
    pose proof (scan_grammar_form var value g nr) as [H1 H2].
    destruct (scan_grammar var value g nr) as [g1 n1]; cbn [fst snd] in *.
    destruct (IH g1 n1) as [IH1 IH2]; split; [congruence|].
    intros t Ht; destruct (IH2 t Ht) as [H|(v1 & v2 & Hin & ->)].
    + destruct (H2 t H) as [H' | ->]; [auto|].
      right; exists var, value; split; [left|]; reflexivity.
    + right; exists v1, v2; split; [right; exact Hin|reflexivity].
Qed.

Lemma keys_skeleton (g : grammar) : keys g = map fst (skeleton g).
Proof.
  unfold keys, skeleton; rewrite map_map; reflexivity.
Qed.

Lemma well_shaped_skeleton (g g' : grammar) :
  skeleton g' = skeleton g -> well_shaped g -> well_shaped g'.
Proof.
  unfold well_shaped; intros E (H1 & H2 & H3).
  rewrite !keys_skeleton, E in *; split; [exact H1|]; split; [exact H2|].
  rewrite Forall_forall in *; intros r Hr.
  assert (Hin : In (fst r, length (snd r)) (skeleton g)).
  { rewrite <- E; unfold skeleton; apply in_map_iff; exists r; auto. }
  unfold skeleton in Hin; apply in_map_iff in Hin as (r0 & E0 & Hr0).
  injection E0 as _ E0; rewrite <- E0; apply H3; exact Hr0.
Qed.

Lemma well_shaped_dict_set (g : grammar) (k v : str) :
  well_shaped g -> well_shaped (dict_set g k [v]).
Proof.
  unfold well_shaped; intros (H1 & H2 & H3); split; [|split].
  - destruct g as [|[k0 a0] g]; [discriminate|].
    simpl in H1 |- *; destruct (str_eqb k0 k); exact H1.
  - apply keys_dict_set_nodup; exact H2.
  - rewrite Forall_forall in *; intros r Hr.
    apply in_dict_set in Hr as [->|Hr]; [reflexivity|auto].
Qed.

Lemma keys_dict_set_incl {V} (d : dict V) (k k' : str) (v : V) :
  In k' (keys (dict_set d k v)) -> k' = k \/ In k' (keys d).
Proof.
  intros H; apply in_map_iff in H as (e & <- & He).
  apply in_dict_set in He as [->|He]; [left; reflexivity|].
  right; apply in_map; exact He.
Qed.

Lemma promote_shape (nr : list triple) (P : str -> Prop) :
  forall (g g' : grammar) (values values' : dict str),
  promote nr g values = (None, g', values') ->
  (forall t, In t nr -> P (snd (fst t))) ->
  well_shaped g -> (forall k, In k (keys g) -> P k) ->
  well_shaped g' /\ (forall k, In k (keys g') -> P k) /\
  (forall e, In e values' -> In e values).
Proof.
  induction nr as [|[[u k] v] rest IH]; intros g g' values values' Hp Hnr Hw Hk.
  - injection Hp as <- <-; auto.
  - cbn [promote] in Hp.
    destruct (dict_del values u) as [d|] eqn:E; [|discriminate].
    apply dict_del_some in E as (_ & Hsub & _).
    apply IH in Hp as (H1 & H2 & H3).
    + split; [exact H1|]; split; [exact H2|auto].
    + intros t Ht; apply Hnr; right; exact Ht.
    + apply well_shaped_dict_set; exact Hw.
    + intros k' Hk'; apply keys_dict_set_incl in Hk' as [->|Hk']; [|auto].
      apply (Hnr (u, k, v)); left; reflexivity.
Qed.

Lemma extract_loop_shape (values0 : dict str) (fuel : nat) :
  forall (values : dict str) (g g_final : grammar),
  (forall e, In e values -> In e values0) ->
  well_shaped g ->
  (forall k, In k (keys g) ->
     k = START_SYMBOL \/ exists var, In var (keys values0) /\ k = nonterminal var) ->
  outcome (extract_loop fuel values g) = Ok g_final ->
  well_shaped g_final /\
  (forall k, In k (keys g_final) ->
     k = START_SYMBOL \/ exists var, In var (keys values0) /\ k = nonterminal var).
Proof.
  induction fuel as [|fuel IH]; intros values g g_final Hsub Hw Hk Hout.
  - discriminate.
  - cbn [extract_loop] in Hout.
    pose proof (scan_values_form values g []) as [Hsk Hform].
    destruct (scan_values values g []) as [g' nr]; cbn [fst snd] in *.
    assert (Hw' : well_shaped g') by (eapply well_shaped_skeleton; eauto).
    assert (Hk' : forall k, In k (keys g') ->
              k = START_SYMBOL \/
              exists var, In var (keys values0) /\ k = nonterminal var).
    { rewrite keys_skeleton, Hsk, <- keys_skeleton; exact Hk. }
    destruct nr as [|t nr].
    + cbn [outcome] in Hout; injection Hout as <-; auto.
    + destruct (promote (t :: nr) g' values) as [[[e|] g''] values'] eqn:Hp;
        [discriminate|].
      cbn [one_more_pass outcome] in Hout.
      destruct (promote_shape _ _ _ _ _ _ Hp
                  (fun t' Ht' =>
                     match Hform t' Ht' with
                     | or_introl F => match F with end
                     | or_intror (ex_intro _ v1 (ex_intro _ v2 (conj Hin E))) =>
                         or_intror
                           (ex_intro _ v1
                              (conj (in_keys v1 v2 values0 (Hsub _ Hin))
                                 (f_equal (fun x => snd (fst x)) E)))
                     end) Hw' Hk') as (H1 & H2 & H3).
      apply (IH values' g'' g_final); auto.
Qed.

(** X7: in every grammar that [get_grammar], called while no hook is
    installed, returns, no key is repeated, the start rule comes first,
    every rule has exactly one alternative, and every other key is the
    nonterminal of a variable of the trace record. *)
Theorem extracted_grammar_shape (function : Callable) (input : str)
    (st st1 st' : State) (values : dict str) (g : grammar) :
  trace_hook st = None ->
  trace_function function input st = (Ok values, st1) ->
  get_grammar function input st = (Ok g, st') ->
  NoDup (keys g) /\
  (exists a0 rules,
     g = (START_SYMBOL, [a0]) :: rules /\
     forallb (fun r => single (snd r)) rules = true) /\
  (forall k, In k (keys g) ->
     k = START_SYMBOL \/ exists var, In var (keys values) /\ k = nonterminal var).
Proof.
  intros _ Ht Hg.
  rewrite trace_function_run in Ht; rewrite get_grammar_run in Hg.
  destruct (snd (function input)); [discriminate|].
  injection Ht as <- _.
  apply (f_equal fst) in Hg; cbn [fst] in Hg.
  assert (Hw0 : well_shaped [(START_SYMBOL, [input])]).
  { split; [reflexivity|]; split; repeat constructor; intros []. }
  assert (Hk0 : forall k, In k (keys [(START_SYMBOL, [input])]) ->
            k = START_SYMBOL \/
            exists var, In var (keys (traced input (fst (function input)))) /\
                        k = nonterminal var).
  { intros k [E|[]]; left; symmetry; exact E. }
  destruct (extract_loop_shape (traced input (fst (function input))) _ _ _ g
              (fun e H => H) Hw0 Hk0 Hg) as ((H1 & H2 & H3) & H4).
  split; [exact H2|]; split; [|exact H4].
  destruct g as [|[k0 alts0] rules]; [discriminate|].
  simpl in H1; injection H1 as ->.
  apply Forall_cons_iff in H3 as [H3 H5]; cbn [snd] in H3.
  destruct alts0 as [|a0 [|b alts0]]; try discriminate.
  exists a0, rules; split; [reflexivity|].
  apply forallb_forall; intros r Hr.
  rewrite Forall_forall in H5; specialize (H5 r Hr).
  destruct (snd r) as [|a [|b l]]; try discriminate; reflexivity.
Qed.

Lemma extracted_grammar_shape_witness :
  NoDup (keys (match fst (get_grammar name_clash (L "abcd") initial_state) with
               | Ok g => g
               | Raise _ => []
               end)).
Proof.
  destruct (extracted_grammar_shape name_clash (L "abcd") initial_state
              (snd (trace_function name_clash (L "abcd") initial_state))
              (snd (get_grammar name_clash (L "abcd") initial_state))
              (traced (L "abcd") (fst (name_clash (L "abcd"))))
              [(L "<start>", [L "<a><a>"]); (L "<a>", [L "cd"])])
    as (H & _).
  - reflexivity.
  - vm_compute; reflexivity.
  - vm_compute; reflexivity.
  - exact H.
Defined.

(** *** The loop stops at a fixpoint *)

Lemma scan_alternatives_quiet (var value : str) (alts : list str)
    (nr : list triple) :
  exists extra,
    snd (scan_alternatives var value alts nr) = nr ++ extra /\
    (extra = [] ->
     fst (scan_alternatives var value alts nr) = alts /\
     Forall (fun a => str_in value a = false) alts).
Proof.
  revert nr; induction alts as [|repl rest IH]; intros nr.
  - exists []; simpl; rewrite app_nil_r; auto.
  - cbn [scan_alternatives].
    destruct (str_in value repl) eqn:E.
    + destruct (IH (nr ++ [(var, nonterminal var, value)])) as (extra & H1 & _).
      destruct (scan_alternatives var value rest
                  (nr ++ [(var, nonterminal var, value)])) as [r n].
      cbn [fst snd] in *.
      exists ((var, nonterminal var, value) :: extra); split.
      * rewrite H1, <- app_assoc; reflexivity.
      * discriminate.
    + destruct (IH nr) as (extra & H1 & H2).
      destruct (scan_alternatives var value rest nr) as [r n].
      cbn [fst snd] in *; exists extra; split; [exact H1|].
      intros He; destruct (H2 He) as [-> H3]; split; [reflexivity|].
      constructor; assumption.
Qed.

Lemma scan_grammar_quiet (var value : str) (g : grammar) (nr : list triple) :
  exists extra,
    snd (scan_grammar var value g nr) = nr ++ extra /\
    (extra = [] ->
     fst (scan_grammar var value g nr) = g /\
     Forall (fun a => str_in value a = false) (alternatives g)).
Proof.
  revert nr; induction g as [|[key alts] rest IH]; intros nr.
  - exists []; simpl; rewrite app_nil_r; auto.
  - cbn [scan_grammar].
    destruct (scan_alternatives_quiet var value alts nr) as (e1 & H1 & H2).
    destruct (scan_alternatives var value alts nr) as [a n1].
    cbn [fst snd] in *; subst n1.
    destruct (IH (nr ++ e1)) as (e2 & H3 & H4).
    destruct (scan_grammar var value rest (nr ++ e1)) as [r n2].
    cbn [fst snd] in *; exists (e1 ++ e2); split.
    + rewrite H3, app_assoc; reflexivity.
    + intros He; apply app_eq_nil in He as [-> ->].
      destruct (H2 eq_refl) as [-> Ha]; destruct (H4 eq_refl) as [-> Hr].
      split; [reflexivity|].
      cbn [alternatives flat_map snd]; apply Forall_app; split; assumption.
Qed.

Lemma scan_values_quiet (values : dict str) (g : grammar) (nr : list triple) :
  exists extra,
    snd (scan_values values g nr) = nr ++ extra /\
    (extra = [] ->
     fst (scan_values values g nr) = g /\
     forall var value, In (var, value) values ->
       Forall (fun a => str_in value a = false) (alternatives g)).
Proof.
  revert g nr; induction values as [|[var value] rest IH]; intros g nr.
  - exists []; simpl; rewrite app_nil_r; split; [reflexivity|].
    intros _; split; [reflexivity|intros ? ? []].
  - cbn [scan_values].
    destruct (scan_grammar_quiet var value g nr) as (e1 & H1 & H2).
    destruct (scan_grammar var value g nr) as [g1 n1].
    cbn [fst snd] in *; subst n1.
    destruct (IH g1 (nr ++ e1)) as (e2 & H3 & H4).
    exists (e1 ++ e2); split.
    + rewrite H3, app_assoc; reflexivity.
    + intros He; apply app_eq_nil in He as [-> ->].
      destruct (H2 eq_refl) as [-> Ha]; destruct (H4 eq_refl) as [Hg Hr].
      split; [exact Hg|].
      intros v1 v2 [E|Hin]; [injection E as <- <-; exact Ha|eauto].
Qed.

Lemma promote_subset (nr : list triple) :
  forall (g g' : grammar) (values values' : dict str) (o : option exn),
  promote nr g values = (o, g', values') ->
  forall e, In e values' -> In e values.
Proof.
  induction nr as [|[[u k] v] rest IH]; intros g g' values values' o Hp.
  - injection Hp as _ _ <-; auto.
  - cbn [promote] in Hp.
    destruct (dict_del values u) as [d|] eqn:E.
    + apply dict_del_some in E as (_ & Hsub & _).
      intros e He; apply Hsub; eapply IH; eauto.
    + injection Hp as _ _ <-; auto.
Qed.

Lemma extract_loop_fixpoint (fuel : nat) :
  forall (values : dict str) (g g_final : grammar),
  outcome (extract_loop fuel values g) = Ok g_final ->
  forall var value, In (var, value) (remaining (extract_loop fuel values g)) ->
    In (var, value) values /\
    Forall (fun a => str_in value a = false) (alternatives g_final).
Proof.
  induction fuel as [|fuel IH]; intros values g g_final Hout; [discriminate|].
  cbn [extract_loop] in *.
  destruct (scan_values_quiet values g []) as (extra & H1 & H2).
  destruct (scan_values values g []) as [g' nr]; cbn [fst snd app] in *.
  subst nr; destruct extra as [|t nr].
  - cbn [outcome remaining] in *; injection Hout as <-.
    destruct (H2 eq_refl) as [-> Hf]; intros var value Hin; split; eauto.
  - destruct (promote (t :: nr) g' values) as [[[e|] g''] values'] eqn:Hp;
      [discriminate|].
    cbn [one_more_pass outcome remaining] in *.
    intros var value Hin; destruct (IH _ _ _ Hout var value Hin) as [Hv Hf].
    split; [|exact Hf].
    eapply promote_subset; eauto.
Qed.

(** X8: when [get_grammar], called while no hook is installed, returns, the
    variables still in the global [the_values] are variables of the trace
    whose value occurs in no alternative of the returned grammar: nothing is
    left to substitute. *)
Theorem extraction_reaches_fixpoint (function : Callable) (input : str)
    (st st' : State) (g : grammar) (var value : str) :
  trace_hook st = None ->
  get_grammar function input st = (Ok g, st') ->
  In (var, value) (the_values st') ->
  In (var, value) (traced input (fst (function input))) /\
  Forall (fun a => str_in value a = false) (alternatives g).
Proof.
  intros _ Hg Hin; rewrite get_grammar_run in Hg.
  destruct (snd (function input)); [discriminate|].
  pose proof (f_equal fst Hg) as H1; pose proof (f_equal snd Hg) as H2.
  cbn [fst snd] in H1, H2; rewrite <- H2 in Hin; cbn [the_values] in Hin.
  exact (extract_loop_fixpoint _ _ _ g H1 var value Hin).
Qed.

Lemma extraction_reaches_fixpoint_witness :
  In (L "zed", L "bc")
    (traced (L "abcd") (fst (hidden_value (L "abcd")))) /\
  Forall (fun a => str_in (L "bc") a = false)
    (alternatives [(L "<start>", [L "<whole>"]);
                   (L "<whole>", [L "<head>cd"]);
                   (L "<head>", [L "ab"])]).
Proof.
  apply (extraction_reaches_fixpoint hidden_value (L "abcd") initial_state
           (snd (get_grammar hidden_value (L "abcd") initial_state))).
  - reflexivity.
  - vm_compute; reflexivity.
  - vm_compute; left; reflexivity.
Defined.

(** ** [merge_grammars] *)

Lemma dict_set_twice {V} (d : dict V) (k : str) (a b : V) :
  dict_set (dict_set d k a) k b = dict_set d k b.
Proof.
  induction d as [|[k' v'] d IH]; simpl.
  - rewrite str_eqb_refl; reflexivity.
  - destruct (str_eqb k' k) eqn:E; simpl; rewrite E; [reflexivity|].
    rewrite IH; reflexivity.
Qed.

Lemma dict_set_same_value {V} (d : dict V) (k : str) (v : V) :
  dict_get d k = Some v -> dict_set d k v = d.
Proof.
  induction d as [|[k' v'] d IH]; simpl; [discriminate|].
  destruct (str_eqb k' k) eqn:E.
  - intros H; injection H as ->; reflexivity.
  - intros H; rewrite IH by exact H; reflexivity.
Qed.

Lemma dict_get_keys {V} (d : dict V) (k : str) :
  In k (keys d) <-> exists v, dict_get d k = Some v.
Proof.
  induction d as [|[k' v'] d IH]; simpl.
  - split; [intros []|intros (v & H); discriminate].
  - destruct (str_eqb k' k) eqn:E.
    + apply str_eqb_eq in E; split; [eauto|auto].
    + apply str_eqb_neq in E; rewrite <- IH; tauto.
Qed.

Lemma dict_get_in {V} (d : dict V) (k : str) (v : V) :
  NoDup (keys d) -> In (k, v) d -> dict_get d k = Some v.
Proof.
  induction d as [|[k' v'] d IH]; simpl; intros Hn Hin; [contradiction|].
  apply NoDup_cons_iff in Hn as [Hn1 Hn2].
  destruct Hin as [E|Hin].
  - injection E as -> ->; rewrite str_eqb_refl; reflexivity.
  - destruct (str_eqb k' k) eqn:E; [|auto].
    apply str_eqb_eq in E; subst k'.
    exfalso; apply Hn1; apply in_map_iff; exists (k, v); auto.
Qed.

Lemma merge_alternatives_other (key1 key2 : str) (repl1 repl2 : list str)
    (merged : grammar) (found : bool) :
  str_eqb key1 key2 = false ->
  merge_alternatives key1 key2 repl1 repl2 merged found = (merged, found).
Proof.
  intros E; revert merged found; induction repl2 as [|repl rest IH];
    intros merged found; [reflexivity|].
  cbn [merge_alternatives]; rewrite E; apply IH.
Qed.

Lemma fold_set_last (k : str) (repl1 : list str) (l : list str)
    (merged : grammar) :
  fold_left (fun m x => dict_set m k (repl1 ++ [x])) l merged =
  match rev l with
  | [] => merged
  | x :: _ => dict_set merged k (repl1 ++ [x])
  end.
Proof.
  revert merged; induction l as [|a l IH]; intros merged; [reflexivity|].
  cbn [fold_left rev]; rewrite IH.
  destruct (rev l) as [|x t]; [reflexivity|].
  cbn [app]; apply dict_set_twice.
Qed.

Lemma merge_alternatives_same (k : str) (repl1 repl2 : list str)
    (merged : grammar) (found : bool) :
  merge_alternatives k k repl1 repl2 merged found =
  (fold_left (fun m x => dict_set m k (repl1 ++ [x])) (new_alts repl1 repl2)
     merged,
   match repl2 with [] => found | _ :: _ => true end).
Proof.
  revert merged found; induction repl2 as [|repl rest IH]; intros merged found.
  - reflexivity.
  - cbn [merge_alternatives]; rewrite str_eqb_refl, IH.
    unfold new_alts; cbn [filter].
    destruct (negb (str_mem repl repl1)); cbn [fold_left];
      destruct rest; reflexivity.
Qed.

Lemma merge_keys_absent (ks : list str) (key2 : str) (repl2 : list str)
    (merged : grammar) (found : bool) :
  ~ In key2 ks ->
  merge_keys ks key2 repl2 merged found = (merged, found).
Proof.
  revert merged found; induction ks as [|key1 rest IH]; intros merged found H.
  - reflexivity.
  - cbn [merge_keys]; rewrite merge_alternatives_other.
    + apply IH; intros Hin; apply H; right; exact Hin.
    + apply str_eqb_neq; intros E; apply H; left; exact E.
Qed.

Lemma merge_keys_present (ks : list str) (key2 : str) (repl1 repl2 : list str)
    (merged : grammar) (found : bool) :
  NoDup ks -> In key2 ks -> dict_get merged key2 = Some repl1 ->
  merge_keys ks key2 repl2 merged found =
  (match rev (new_alts repl1 repl2) with
   | [] => merged
   | x :: _ => dict_set merged key2 (repl1 ++ [x])
   end,
   match repl2 with [] => found | _ :: _ => true end).
Proof.
  revert merged found; induction ks as [|key1 rest IH];
    intros merged found Hn Hin Hg; [destruct Hin|].
  apply NoDup_cons_iff in Hn as [Hn1 Hn2].
  cbn [merge_keys].
  destruct (str_eqb key1 key2) eqn:E.
  - apply str_eqb_eq in E; subst key1; rewrite Hg.
    rewrite merge_alternatives_same, merge_keys_absent by exact Hn1.
    rewrite fold_set_last; reflexivity.
  - rewrite merge_alternatives_other by exact E.
    apply IH; auto.
    destruct Hin as [Hin|Hin]; [|exact Hin].
    subst; rewrite str_eqb_refl in E; discriminate.
Qed.

(** What the body of the loop over [g2] does to the merged grammar. *)
Lemma merge_rule_spec (merged : grammar) (key2 : str) (repl2 : list str) :
  NoDup (keys merged) ->
  merge_rule merged key2 repl2 =
  dict_set merged key2
    match dict_get merged key2 with
    | None => repl2
    | Some repl1 => merged_rule repl1 repl2
    end.
Proof.
  intros Hn; unfold merge_rule.
  destruct (dict_get merged key2) as [repl1|] eqn:Hg.
  - assert (Hin : In key2 (keys merged)) by (apply dict_get_keys; eauto).
    rewrite (merge_keys_present _ _ repl1 _ _ _ Hn Hin Hg).
    unfold merged_rule; destruct repl2 as [|r2 rest]; [reflexivity|].
    cbn [negb].
    destruct (rev (new_alts repl1 (r2 :: rest))) as [|x t]; [|reflexivity].
    symmetry; apply dict_set_same_value; exact Hg.
  - assert (Hin : ~ In key2 (keys merged)).
    { intros H; apply dict_get_keys in H as (v & H); congruence. }
    rewrite merge_keys_absent by exact Hin; reflexivity.
Qed.

Lemma merge_rule_nodup (merged : grammar) (key2 : str) (repl2 : list str) :
  NoDup (keys merged) -> NoDup (keys (merge_rule merged key2 repl2)).
Proof.
  intros Hn; rewrite merge_rule_spec by exact Hn.
  apply keys_dict_set_nodup; exact Hn.
Qed.

Lemma merge_grammars_nodup (g2 g1 : grammar) :
  NoDup (keys g1) -> NoDup (keys (merge_grammars g1 g2)).
Proof.
  unfold merge_grammars; revert g1.
  induction g2 as [|[key2 repl2] rest IH]; intros g1 Hn; [exact Hn|].
  cbn [fold_left]; apply IH; apply merge_rule_nodup; exact Hn.
Qed.

Lemma merge_lookup (g1 g2 : grammar) (k : str) :
  NoDup (keys g1) -> NoDup (keys g2) ->
  dict_get (merge_grammars g1 g2) k =
  match dict_get g2 k with
  | None => dict_get g1 k
  | Some repl2 =>
      match dict_get g1 k with
      | None => Some repl2
      | Some repl1 => Some (merged_rule repl1 repl2)
      end
  end.
Proof.
  intros H1 H2; unfold merge_grammars; revert g1 H1.
  induction g2 as [|[key2 repl2] rest IH]; intros g1 H1; [reflexivity|].
  simpl in H2; apply NoDup_cons_iff in H2 as [Hk Hn].
  cbn [fold_left dict_get].
  rewrite IH by (try exact Hn; apply merge_rule_nodup; exact H1).
  rewrite merge_rule_spec by exact H1.
  destruct (str_eqb key2 k) eqn:E.
  - apply str_eqb_eq in E; subst key2.
    assert (Hr : dict_get rest k = None).
    { destruct (dict_get rest k) eqn:Er; [|reflexivity].
      exfalso; apply Hk; apply dict_get_keys; eauto. }
    rewrite Hr, dict_get_set_same.
    destruct (dict_get g1 k); reflexivity.
  - apply str_eqb_neq in E.
    rewrite dict_get_set_other by (intros E'; apply E; symmetry; exact E').
    reflexivity.
Qed.

(** X9: the rule that [merge_grammars] returns for a key, for dictionaries
    [g1] and [g2]: the rule of [g1] when [g2] lacks the key, the rule of
    [g2] when [g1] lacks it, and otherwise the rule of [g1] followed by the
    last alternative of [g2]'s rule that it lacks, if any; when [g2]'s rule
    is empty the merged rule is empty. *)
Theorem merge_grammars_lookup (g1 g2 : grammar) (k : str) :
  distinct (keys g1) = true -> distinct (keys g2) = true ->
  dict_get (merge_grammars g1 g2) k =
  match dict_get g2 k with
  | None => dict_get g1 k
  | Some repl2 =>
      match dict_get g1 k with
      | None => Some repl2
      | Some repl1 => Some (merged_rule repl1 repl2)
      end
  end.
Proof.
  intros H1 H2; apply merge_lookup; apply distinct_NoDup; assumption.
Qed.

Lemma merge_grammars_lookup_witness :
  dict_get (merge_grammars g_http g_https) (L "<scheme>")
    = Some [L "http"; L "https"].
Proof.
  exact (merge_grammars_lookup g_http g_https (L "<scheme>")
           eq_refl eq_refl).
Defined.

Lemma new_alts_spec (repl1 repl2 : list str) (a : str) :
  In a (new_alts repl1 repl2) <-> In a repl2 /\ ~ In a repl1.
Proof.
  unfold new_alts; rewrite filter_In; split; intros [H1 H2]; split; auto.
  - intros Hin; apply str_mem_spec in Hin; rewrite Hin in H2; discriminate.
  - destruct (str_mem a repl1) eqn:E; [|reflexivity].
    apply str_mem_spec in E; contradiction.
Qed.

Lemma merged_rule_single (repl1 : list str) (a : str) :
  merged_rule repl1 [a] = if str_mem a repl1 then repl1 else repl1 ++ [a].
Proof.
  unfold merged_rule, new_alts; cbn [filter].
  destruct (str_mem a repl1); reflexivity.
Qed.

Lemma merged_rule_extends (repl1 repl2 : list str) :
  repl2 <> [] ->
  exists tail, merged_rule repl1 repl2 = repl1 ++ tail /\ length tail <= 1 /\
               forall a, In a tail -> In a repl2 /\ ~ In a repl1.
Proof.
  intros H; unfold merged_rule; destruct repl2 as [|r rest]; [contradiction|].
  destruct (rev (new_alts repl1 (r :: rest))) as [|x t] eqn:E.
  - exists []; rewrite app_nil_r; simpl; split; [reflexivity|].
    split; [lia|intros ? []].
  - exists [x]; split; [reflexivity|]; split; [simpl; lia|].
    intros a [<-|[]]; apply new_alts_spec.
    apply in_rev; rewrite E; left; reflexivity.
Qed.

(** X10: merging never loses an alternative of [g1] and adds at most one
    alternative to a rule: for dictionaries [g1] and [g2], where [g2] has no
    empty rule, the merged rule of a key of [g1] is the rule of [g1]
    followed by at most one alternative, which comes from [g2]'s rule and
    is new. *)
Theorem merge_grammars_keeps_g1 (g1 g2 : grammar) (k : str)
    (repl1 : list str) :
  distinct (keys g1) = true -> distinct (keys g2) = true ->
  forallb (fun r => negb (length (snd r) =? 0)) g2 = true ->
  dict_get g1 k = Some repl1 ->
  exists tail,
    dict_get (merge_grammars g1 g2) k = Some (repl1 ++ tail) /\
    length tail <= 1 /\
    forall a, In a tail ->
      ~ In a repl1 /\ exists repl2, dict_get g2 k = Some repl2 /\ In a repl2.
Proof.
  intros H1 H2 Hne Hg.
  apply distinct_NoDup in H1; apply distinct_NoDup in H2.
  rewrite (merge_lookup g1 g2 k H1 H2), Hg.
  destruct (dict_get g2 k) as [repl2|] eqn:E2.
  - assert (Hr : repl2 <> []).
    { intros ->; rewrite forallb_forall in Hne.
      assert (Hin : In (k, []) g2).
      { clear - E2; induction g2 as [|[k' v'] g2 IH]; [discriminate|].
        simpl in E2; destruct (str_eqb k' k) eqn:E.
        - apply str_eqb_eq in E; injection E2 as ->; left; congruence.
        - right; auto. }
      specialize (Hne _ Hin); discriminate. }
    destruct (merged_rule_extends repl1 repl2 Hr) as (tail & -> & Hl & Ht).
    exists tail; split; [reflexivity|]; split; [exact Hl|].
    intros a Ha; destruct (Ht a Ha); split; [assumption|eauto].
  - exists []; rewrite app_nil_r; split; [reflexivity|].
    split; [simpl; lia|intros ? []].
Qed.

Lemma merge_grammars_keeps_g1_witness :
  exists tail,
    dict_get (merge_grammars g_http g_https) (L "<url>")
      = Some ([L "<scheme>://<netloc>/"] ++ tail) /\
    length tail <= 1.
Proof.
  destruct (merge_grammars_keeps_g1 g_http g_https (L "<url>")
              [L "<scheme>://<netloc>/"] eq_refl eq_refl eq_refl eq_refl)
    as (tail & H1 & H2 & _).
  exists tail; split; assumption.
Defined.

Lemma merge_union (g1 g2 : grammar) :
  NoDup (keys g1) -> NoDup (keys g2) ->
  forallb (fun r => single (snd r)) g2 = true ->
  (forall k a,
     (exists alts, dict_get (merge_grammars g1 g2) k = Some alts /\ In a alts)
     <->
     (exists alts, dict_get g1 k = Some alts /\ In a alts) \/
     (exists alts, dict_get g2 k = Some alts /\ In a alts)) /\
  ((forall k alts, dict_get g1 k = Some alts -> NoDup alts) ->
   forall k alts, dict_get (merge_grammars g1 g2) k = Some alts -> NoDup alts).
Proof.
  intros H1 H2 Hs.
  assert (Hone : forall k repl2, dict_get g2 k = Some repl2 ->
                   exists a, repl2 = [a]).
  { intros k repl2 E; rewrite forallb_forall in Hs.
    assert (Hin : In (k, repl2) g2).
    { clear - E; induction g2 as [|[k' v'] g2 IH]; [discriminate|].
      simpl in E; destruct (str_eqb k' k) eqn:E'.
      - apply str_eqb_eq in E'; injection E as ->; left; congruence.
      - right; auto. }
    specialize (Hs _ Hin); cbn [snd] in Hs.
    destruct repl2 as [|a [|b l]]; try discriminate; eauto. }
  split.
  - intros k a; rewrite (merge_lookup g1 g2 k H1 H2).
    destruct (dict_get g2 k) as [repl2|] eqn:E2.
    + destruct (Hone k repl2 E2) as (a2 & ->).
      destruct (dict_get g1 k) as [repl1|] eqn:E1.
      * rewrite merged_rule_single; split.
        -- intros (alts & E & Hin); injection E as <-.
           destruct (str_mem a2 repl1); [left; eauto|].
           apply in_app_or in Hin as [Hin|Hin]; [left|right]; eauto.
        -- intros [(alts & E & Hin)|(alts & E & Hin)]; injection E as <-.
           ++ eexists; split; [reflexivity|].
              destruct (str_mem a2 repl1); [|apply in_or_app]; auto.
           ++ destruct Hin as [<-|[]]; eexists; split; [reflexivity|].
              destruct (str_mem a2 repl1) eqn:Em.
              ** apply str_mem_spec; exact Em.
              ** apply in_or_app; right; left; reflexivity.
      * split; [eauto|].
        intros [(alts & E & _)|H]; [discriminate|exact H].
    + split; [eauto|].
      intros [H|(alts & E & _)]; [exact H|discriminate].
  - intros Hnd k alts; rewrite (merge_lookup g1 g2 k H1 H2).
    destruct (dict_get g2 k) as [repl2|] eqn:E2; [|apply Hnd].
    destruct (Hone k repl2 E2) as (a2 & ->).
    destruct (dict_get g1 k) as [repl1|] eqn:E1.
    + rewrite merged_rule_single; intros E; injection E as <-.
      destruct (str_mem a2 repl1) eqn:Em; [apply (Hnd k); exact E1|].
      apply NoDup_app; [apply (Hnd k); exact E1|repeat constructor; intros []|].
      intros x Hx [<-|[]].
      apply str_mem_spec in Hx; congruence.
    + intros E; injection E as <-; repeat constructor; intros [].
Qed.

(** X11: when every rule of [g2] has exactly one alternative, as in the
    grammars [get_grammar] returns, merging is a union: an alternative is
    in the merged rule of a key exactly when it is in the rule of [g1] or in
    the rule of [g2] for that key; and when no rule of [g1] repeats an
    alternative, no merged rule does. *)
Theorem merge_grammars_union (g1 g2 : grammar) :
  distinct (keys g1) = true -> distinct (keys g2) = true ->
  forallb (fun r => single (snd r)) g2 = true ->
  (forall k a,
     (exists alts, dict_get (merge_grammars g1 g2) k = Some alts /\ In a alts)
     <->
     (exists alts, dict_get g1 k = Some alts /\ In a alts) \/
     (exists alts, dict_get g2 k = Some alts /\ In a alts)) /\
  ((forall k alts, dict_get g1 k = Some alts -> NoDup alts) ->
   forall k alts, dict_get (merge_grammars g1 g2) k = Some alts -> NoDup alts).
Proof.
  intros H1 H2; apply merge_union; apply distinct_NoDup; assumption.
Qed.

Lemma merge_grammars_union_witness :
  (exists alts,
     dict_get (merge_grammars g_http g_https) (L "<fragment>") = Some alts /\
     In (L "top") alts).
Proof.
  destruct (merge_grammars_union g_http g_https eq_refl eq_refl eq_refl)
    as [H _].
  apply (H (L "<fragment>") (L "top")); right.
  exists [L "top"]; split; [reflexivity|left; reflexivity].
Defined.

Lemma new_alts_self (repl : list str) : new_alts repl repl = [].
Proof.
  unfold new_alts.
  assert (H : forall l, (forall a, In a l -> In a repl) ->
            filter (fun r => negb (str_mem r repl)) l = []).
  { induction l as [|a l IH]; intros Hl; [reflexivity|].
    cbn [filter].
    assert (E : str_mem a repl = true)
      by (apply str_mem_spec; apply Hl; left; reflexivity).
    rewrite E; apply IH; intros b Hb; apply Hl; right; exact Hb. }
  apply H; auto.
Qed.

(** X12: merging a grammar with itself changes nothing. *)
Theorem merge_grammars_idempotent (g : grammar) :
  distinct (keys g) = true -> merge_grammars g g = g.
Proof.
  intros Hd; apply distinct_NoDup in Hd; unfold merge_grammars.
  assert (H : forall l, (forall k r, In (k, r) l -> dict_get g k = Some r) ->
            fold_left (fun merged '(key2, repl2) => merge_rule merged key2 repl2)
              l g = g).
  { induction l as [|[k r] l IH]; intros Hl; [reflexivity|].
    cbn [fold_left]; rewrite merge_rule_spec by exact Hd.
    rewrite (Hl k r) by (left; reflexivity).
    assert (E : merged_rule r r = r).
    { unfold merged_rule; rewrite new_alts_self; destruct r; reflexivity. }
    rewrite E, dict_set_same_value by (apply Hl; left; reflexivity).
    apply IH; intros k' r' Hin; apply Hl; right; exact Hin. }
  apply H; intros k r Hin; apply dict_get_in; assumption.
Qed.

Lemma merge_grammars_idempotent_witness :
  merge_grammars g_https g_https = g_https.
Proof. exact (merge_grammars_idempotent g_https eq_refl). Defined.

Lemma new_keys_spec (seen l : list str) (k : str) :
  In k (new_keys seen l) <-> In k l /\ ~ In k seen.
Proof.
  unfold new_keys; rewrite filter_In; split; intros [H1 H2]; split; auto.
  - intros Hin; apply str_mem_spec in Hin; rewrite Hin in H2; discriminate.
  - destruct (str_mem k seen) eqn:E; [|reflexivity].
    apply str_mem_spec in E; contradiction.
Qed.

(** X13: the keys of the merged grammar are the keys of [g1], in their
    order, followed by the keys of [g2] that [g1] lacks, in their order. *)
Theorem merge_grammars_keys (g1 g2 : grammar) :
  distinct (keys g1) = true -> distinct (keys g2) = true ->
  keys (merge_grammars g1 g2) = keys g1 ++ new_keys (keys g1) (keys g2).
Proof.
  intros H1 H2; apply distinct_NoDup in H1; apply distinct_NoDup in H2.
  unfold merge_grammars; revert g1 H1.
  induction g2 as [|[key2 repl2] rest IH]; intros g1 H1.
  - simpl; rewrite app_nil_r; reflexivity.
  - simpl in H2; apply NoDup_cons_iff in H2 as [Hk Hn].
    cbn [fold_left]; rewrite IH by (try exact Hn; apply merge_rule_nodup; auto).
    rewrite merge_rule_spec by exact H1.
    unfold new_keys; cbn [keys map fst filter].
    destruct (str_mem key2 (keys g1)) eqn:E; cbn [negb].
    + apply str_mem_spec in E; rewrite keys_dict_set_in by exact E.
      reflexivity.
    + assert (Hnot : ~ In key2 (keys g1)).
      { intros Hin; apply str_mem_spec in Hin; congruence. }
      rewrite dict_set_fresh by exact Hnot.
      unfold keys at 1 2; rewrite map_app; cbn [map fst].
      rewrite <- app_assoc; cbn [app]; f_equal; f_equal.
      apply filter_ext_in; intros k Hin; f_equal.
      unfold str_mem; rewrite existsb_app; cbn [existsb].
      rewrite orb_false_r.
      destruct (str_eqb k key2) eqn:Ek; [|apply orb_false_r].
      apply str_eqb_eq in Ek; subst; contradiction.
Qed.

Lemma merge_grammars_keys_witness :
  keys (merge_grammars g_http g_https) =
  [L "<start>"; L "<url>"; L "<scheme>"; L "<netloc>"; L "<fragment>"].
Proof. exact (merge_grammars_keys g_http g_https eq_refl eq_refl). Defined.

Lemma merge_rules_fresh (rest pre : grammar) :
  NoDup (keys (pre ++ rest)) ->
  fold_left (fun merged '(key2, repl2) => merge_rule merged key2 repl2)
    rest pre = pre ++ rest.
Proof.
  revert pre; induction rest as [|[k r] rest IH]; intros pre Hn.
  - rewrite app_nil_r; reflexivity.
  - assert (Hpre : NoDup (keys pre) /\ ~ In k (keys pre)).
    { unfold keys in *; rewrite map_app in Hn; cbn [map fst] in Hn.
      split; [apply NoDup_app_remove_r in Hn; exact Hn|].
      apply NoDup_remove_2 in Hn; intros Hin; apply Hn.
      apply in_or_app; left; exact Hin. }
    destruct Hpre as [Hp Hk].
    cbn [fold_left]; rewrite merge_rule_spec by exact Hp.
    assert (Eg : dict_get pre k = None).
    { destruct (dict_get pre k) eqn:Eg; [|reflexivity].
      exfalso; apply Hk; apply dict_get_keys; eauto. }
    rewrite Eg, dict_set_fresh by exact Hk.
    rewrite IH; rewrite <- app_assoc; [reflexivity|exact Hn].
Qed.

(** X14: merging two grammars that have no key in common puts the rules of
    [g2] after the rules of [g1], all unchanged; in particular merging into
    the empty grammar returns [g2] as it is. *)
Theorem merge_grammars_disjoint (g1 g2 : grammar) :
  distinct (keys (g1 ++ g2)) = true -> merge_grammars g1 g2 = g1 ++ g2.
Proof.
  intros Hd; apply distinct_NoDup in Hd.
  apply merge_rules_fresh; exact Hd.
Qed.

Lemma merge_grammars_disjoint_witness :
  merge_grammars [] g_https = g_https /\
  merge_grammars [(L "<a>", [L "x"])] [(L "<b>", [L "y"; L "z"])]
    = [(L "<a>", [L "x"]); (L "<b>", [L "y"; L "z"])].
Proof.
  split.
  - exact (merge_grammars_disjoint [] g_https eq_refl).
  - exact (merge_grammars_disjoint [(L "<a>", [L "x"])]
             [(L "<b>", [L "y"; L "z"])] eq_refl).
Defined.

(** ** [get_merged_grammar] *)

(** The loop over a sequence of inputs in two parts. *)
Lemma merge_inputs_app (function : Callable) (a b : list str)
    (acc : option grammar) (st : State) :
  merge_inputs function (a ++ b) acc st =
  match merge_inputs function a acc st with
  | (Ok acc', st') => merge_inputs function b acc' st'
  | (Raise e, st') => (Raise e, st')
  end.
Proof.
  revert acc st; induction a as [|i a IH]; intros acc st; [reflexivity|].
  cbn [app merge_inputs]; unfold bind.
  destruct (get_grammar function i st) as [[g|e] st1]; [|reflexivity].
  destruct acc; apply IH.
Qed.

(** X15: [get_merged_grammar] is a fold from the left: if it returns the
    grammar [m] for a sequence of inputs and [get_grammar] then returns [g]
    for one more input, it returns [merge_grammars m g] for the sequence
    with that input added at the end. *)
Theorem get_merged_grammar_snoc (function : Callable) (inputs : list str)
    (input : str) (st st1 st2 : State) (m g : grammar) :
  get_merged_grammar function inputs st = (Ok (Some m), st1) ->
  get_grammar function input st1 = (Ok g, st2) ->
  get_merged_grammar function (inputs ++ [input]) st =
  (Ok (Some (merge_grammars m g)), st2).
Proof.
  unfold get_merged_grammar; intros H1 H2.
  rewrite merge_inputs_app, H1; cbn [merge_inputs]; unfold bind.
  rewrite H2; reflexivity.
Qed.

Lemma get_merged_grammar_snoc_witness :
  fst (get_merged_grammar url_splitter
         ([L "http://a.org/#top"] ++ [L "ab"]) initial_state)
  = Ok (Some (merge_grammars
                [(L "<start>", [L "<url>"]);
                 (L "<url>", [L "<scheme>://<netloc>/#<fragment>"]);
                 (L "<scheme>", [L "http"]);
                 (L "<netloc>", [L "a.org"]);
                 (L "<fragment>", [L "top"])]
                [(L "<start>", [L "<url>"]); (L "<url>", [L "ab"])])).
Proof.
  rewrite (get_merged_grammar_snoc url_splitter [L "http://a.org/#top"]
             (L "ab") initial_state
             (snd (get_merged_grammar url_splitter [L "http://a.org/#top"]
                     initial_state))
             (snd (get_grammar url_splitter (L "ab")
                     (snd (get_merged_grammar url_splitter
                             [L "http://a.org/#top"] initial_state))))
             [(L "<start>", [L "<url>"]);
              (L "<url>", [L "<scheme>://<netloc>/#<fragment>"]);
              (L "<scheme>", [L "http"]);
              (L "<netloc>", [L "a.org"]);
              (L "<fragment>", [L "top"])]
             [(L "<start>", [L "<url>"]); (L "<url>", [L "ab"])]).
  - reflexivity.
  - vm_compute; reflexivity.
  - vm_compute; reflexivity.
Defined.

(** X16: the first input on which [get_grammar] raises ends
    [get_merged_grammar] with that exception: the grammars merged so far
    are not returned and the inputs after it are not looked at. *)
Theorem get_merged_grammar_first_failure (function : Callable)
    (before after : list str) (input : str) (st st1 st2 : State)
    (r : option grammar) (e : exn) :
  get_merged_grammar function before st = (Ok r, st1) ->
  get_grammar function input st1 = (Raise e, st2) ->
  get_merged_grammar function (before ++ input :: after) st = (Raise e, st2).
Proof.
  unfold get_merged_grammar; intros H1 H2.
  rewrite merge_inputs_app, H1; cbn [merge_inputs]; unfold bind.
  rewrite H2; reflexivity.
Qed.

Lemma get_merged_grammar_first_failure_witness :
  fst (get_merged_grammar picky ([L "good"] ++ L "bad" :: [L "more"])
         initial_state) = Raise (Raised 3).
Proof.
  rewrite (get_merged_grammar_first_failure picky [L "good"] [L "more"]
             (L "bad") initial_state
             (snd (get_merged_grammar picky [L "good"] initial_state))
             (snd (get_grammar picky (L "bad")
                     (snd (get_merged_grammar picky [L "good"]
                             initial_state))))
             (fst (match get_merged_grammar picky [L "good"] initial_state with
                   | (Ok r, _) => (r, tt)
                   | (Raise _, _) => (None, tt)
                   end))
             (Raised 3)).
  - reflexivity.
  - vm_compute; reflexivity.
  - vm_compute; reflexivity.
Defined.

Lemma merge_inputs_some (function : Callable) (inputs : list str)
    (m : grammar) (st : State) :
  fst (merge_inputs function inputs (Some m) st) <> Ok None.
Proof.
  revert m st; induction inputs as [|i rest IH]; intros m st; [discriminate|].
  cbn [merge_inputs]; unfold bind.
  destruct (get_grammar function i st) as [[g|e] st1]; [apply IH|discriminate].
Qed.

(** X17: [get_merged_grammar] returns [None] for the empty sequence of
    inputs only. *)
Theorem get_merged_grammar_none_iff (function : Callable)
    (inputs : list str) (st : State) :
  fst (get_merged_grammar function inputs st) = Ok None <-> inputs = [].
Proof.
  unfold get_merged_grammar; split.
  - destruct inputs as [|i rest]; [reflexivity|].
    cbn [merge_inputs]; unfold bind.
    destruct (get_grammar function i st) as [[g|e] st1]; [|discriminate].
    intros H; exfalso; exact (merge_inputs_some _ _ _ _ H).
  - intros ->; reflexivity.
Qed.

(** *** Nothing extracted is lost in the merge *)

Lemma get_grammar_result_shape (function : Callable) (input : str)
    (st st' : State) (g : grammar) :
  get_grammar function input st = (Ok g, st') -> well_shaped g.
Proof.
  intros Hg; rewrite get_grammar_run in Hg.
  destruct (snd (function input)); [discriminate|].
  apply (f_equal fst) in Hg; cbn [fst] in Hg.
  assert (Hw0 : well_shaped [(START_SYMBOL, [input])]).
  { split; [reflexivity|]; split; repeat constructor; intros []. }
  assert (Hk0 : forall k, In k (keys [(START_SYMBOL, [input])]) ->
            k = START_SYMBOL \/
            exists var, In var (keys (traced input (fst (function input)))) /\
                        k = nonterminal var).
  { intros k [E|[]]; left; symmetry; exact E. }
  apply (extract_loop_shape (traced input (fst (function input))) _ _ _ g
           (fun e H => H) Hw0 Hk0 Hg).
Qed.


Lemma dict_get_some_in {V} (d : dict V) (k : str) (v : V) :
  dict_get d k = Some v -> In (k, v) d.
Proof.
  induction d as [|[k' v'] d IH]; simpl; [discriminate|].
  destruct (str_eqb k' k) eqn:E; [|auto].
  apply str_eqb_eq in E; intros H; injection H as ->; left; congruence.
Qed.







(** ** The exceptions of [get_grammar] *)

Lemma count_var_two (var : str) (pre post : list triple) (t : triple) :
  var_of t = var -> In var (map var_of pre) ->
  2 <= count_var var (pre ++ t :: post).
Proof.
  intros E Hin; rewrite count_var_app.
  pose proof (count_var_in _ _ Hin) as H1.
  unfold count_var at 2; cbn [filter]; rewrite E, str_eqb_refl; simpl; lia.
Qed.

Lemma filter_all {A} (f : A -> bool) (l : list A) :
  (forall x, In x l -> f x = true) -> filter f l = l.
Proof.
  induction l as [|a l IH]; intros H; [reflexivity|].
  cbn [filter]; rewrite (H a) by (left; reflexivity).
  f_equal; apply IH; intros x Hx; apply H; right; exact Hx.
Qed.

Lemma filter_twice {A} (f h : A -> bool) (l : list A) :
  filter f (filter h l) = filter (fun x => h x && f x) l.
Proof.
  induction l as [|a l IH]; [reflexivity|].
  cbn [filter]; destruct (h a); cbn [filter andb]; rewrite IH; reflexivity.
Qed.

(** [del d[k]] removes the entry of [k] and nothing else. *)
Lemma dict_del_filter {V} (d d' : dict V) (k : str) :
  NoDup (keys d) -> dict_del d k = Some d' ->
  d' = filter (fun e => negb (str_eqb (fst e) k)) d.
Proof.
  revert d'; induction d as [|[k' v'] d IH]; intros d' Hn H; [discriminate|].
  simpl in Hn; apply NoDup_cons_iff in Hn as [Hn1 Hn2].
  cbn [dict_del filter fst] in *.
  destruct (str_eqb k' k) eqn:E; cbn [negb].
  - injection H as <-; apply str_eqb_eq in E; subst k'.
    symmetry; apply filter_all; intros [k1 v1] Hin; cbn [fst].
    destruct (str_eqb k1 k) eqn:E1; [|reflexivity].
    apply str_eqb_eq in E1; subst k1.
    exfalso; apply Hn1; apply in_map_iff; exists (k, v1); auto.
  - destruct (dict_del d k) as [d''|] eqn:Ed; [|discriminate].
    injection H as <-; f_equal; apply IH; auto.
Qed.

(** A promotion that succeeds deletes exactly the pending variables. *)
Lemma promote_ok_filter (nr : list triple) :
  forall (g g' : grammar) (values values' : dict str),
  NoDup (keys values) ->
  promote nr g values = (None, g', values') ->
  values' =
  filter (fun e => negb (str_mem (fst e) (map var_of nr))) values.
Proof.
  induction nr as [|[[u k] v] rest IH]; intros g g' values values' Hn Hp.
  - injection Hp as _ <-; symmetry; apply filter_all; reflexivity.
  - cbn [promote] in Hp.
    destruct (dict_del values u) as [d|] eqn:E; [|discriminate].
    pose proof (dict_del_filter _ _ _ Hn E) as Ed.
    apply dict_del_some in E as (_ & _ & E); destruct (E Hn) as (Hd & _).
    rewrite (IH _ _ _ _ Hd Hp), Ed, filter_twice.
    apply filter_ext; intros [k1 v1]; cbn [fst map var_of].
    unfold str_mem; cbn [existsb fst].
    destruct (str_eqb k1 u); reflexivity.
Qed.

(** A promotion that succeeds sets the rule of every pending key to the
    value of a pending triple and leaves the other rules alone. *)
Lemma promote_ok_rules (nr : list triple) :
  forall (g g' : grammar) (values values' : dict str),
  promote nr g values = (None, g', values') ->
  (forall k, ~ In k (map (fun t => snd (fst t)) nr) ->
     dict_get g' k = dict_get g k) /\
  (forall k, In k (map (fun t => snd (fst t)) nr) ->
     exists var value, In (var, k, value) nr /\ dict_get g' k = Some [value]).
Proof.
  induction nr as [|[[u k0] v0] rest IH]; intros g g' values values' Hp.
  - injection Hp as <- _; split; [reflexivity|intros ? []].
  - cbn [promote] in Hp.
    destruct (dict_del values u) as [d|] eqn:E; [|discriminate].
    destruct (IH _ _ _ _ Hp) as [I1 I2]; split.
    + intros k Hk.
      rewrite I1 by (intros Hin; apply Hk; right; exact Hin).
      apply dict_get_set_other; intros ->; apply Hk; left; reflexivity.
    + intros k Hk.
      destruct (str_mem k (map (fun t => snd (fst t)) rest)) eqn:Em.
      * apply str_mem_spec in Em.
        destruct (I2 k Em) as (var & value & Hin & Hg).
        exists var, value; split; [right; exact Hin|exact Hg].
      * assert (Hnot : ~ In k (map (fun t => snd (fst t)) rest)).
        { intros Hin; apply str_mem_spec in Hin; congruence. }
        destruct Hk as [Hk|Hk]; [|contradiction].
        cbn [fst snd] in Hk; subst k0.
        exists u, v0; split; [left; reflexivity|].
        rewrite I1 by exact Hnot; apply dict_get_set_same.
Qed.

(** X19: the loop at the end of a pass fails exactly when the pass recorded
    two triples for some variable.  If every variable was substituted in at
    most one alternative it succeeds, and when it succeeds it has deleted
    exactly the pending variables from the trace record, every pending key
    has as its rule the value of a pending triple with that key, and the
    rules of the other keys are as they were. *)
Theorem promotion_fails_iff_duplicate (values : dict str) (g g' : grammar)
    (new_rules : list triple) :
  distinct (keys values) = true ->
  scan_values values g [] = (g', new_rules) ->
  ((exists e g'' values',
      promote new_rules g' values = (Some e, g'', values'))
   <-> exists var, 2 <= count_var var new_rules) /\
  ((forall var, count_var var new_rules <= 1) ->
   exists g'' values', promote new_rules g' values = (None, g'', values')) /\
  (forall g'' values',
     promote new_rules g' values = (None, g'', values') ->
     values' =
       filter (fun e => negb (str_mem (fst e) (map var_of new_rules)))
         values /\
     (forall k, ~ In k (map (fun t => snd (fst t)) new_rules) ->
        dict_get g'' k = dict_get g' k) /\
     (forall k, In k (map (fun t => snd (fst t)) new_rules) ->
        exists var value,
          In (var, k, value) new_rules /\ dict_get g'' k = Some [value])).
Proof.
  intros Hd Hs; apply distinct_NoDup in Hd.
  assert (Hfail : forall e g'' values',
            promote new_rules g' values = (Some e, g'', values') ->
            exists var, 2 <= count_var var new_rules).
  { intros e g'' values' Hp.
    destruct (promote_fail_second _ _ _ _ _ _ Hd Hp)
      as (pre & t & post & E & _ & Hin).
    exists (var_of t); rewrite E; apply count_var_two; [reflexivity|].
    apply Hin.
    destruct (scan_values_vars values g [] t) as [[]|H]; [|exact H].
    rewrite Hs, E; cbn [snd]; apply in_or_app; right; left; reflexivity. }
  split; [split|split].
  - intros (e & g'' & values' & Hp); eauto.
  - intros (var & Hc); apply (promote_duplicate _ _ _ var); assumption.
  - intros Hone.
    destruct (promote new_rules g' values) as [[[e|] g''] values'] eqn:Hp;
      [|eauto].
    destruct (Hfail _ _ _ eq_refl) as (var & Hc).
    specialize (Hone var); lia.
  - intros g'' values' Hp; split.
    + eapply promote_ok_filter; eauto.
    + eapply promote_ok_rules; eauto.
Qed.

Lemma promotion_fails_iff_duplicate_witness :
  ((exists e g'' values',
      promote [(L "w", L "<w>", L "ab"); (L "w", L "<w>", L "ab")]
        [(L "<start>", [L "<u><v>"]); (L "<u>", [L "x<w>"]);
         (L "<v>", [L "y<w>"])]
        [(L "w", L "ab")] = (Some e, g'', values'))
   <-> exists var,
         2 <= count_var var
                [(L "w", L "<w>", L "ab"); (L "w", L "<w>", L "ab")]) /\
  ([(L "zed", L "bc")] =
   filter
     (fun e =>
        negb (str_mem (fst e) (map var_of [(L "head", L "<head>", L "ab")])))
     [(L "head", L "ab"); (L "zed", L "bc")] /\
   exists var value,
     In (var, L "<head>", value) [(L "head", L "<head>", L "ab")] /\
     dict_get
       [(L "<start>", [L "<whole>"]); (L "<whole>", [L "<head>cd"]);
        (L "<head>", [L "ab"])] (L "<head>") = Some [value]).
Proof.
  split.
  - apply (promotion_fails_iff_duplicate [(L "w", L "ab")]
             [(L "<start>", [L "<u><v>"]); (L "<u>", [L "xab"]);
              (L "<v>", [L "yab"])]
             [(L "<start>", [L "<u><v>"]); (L "<u>", [L "x<w>"]);
              (L "<v>", [L "y<w>"])]
             [(L "w", L "<w>", L "ab"); (L "w", L "<w>", L "ab")]).
    + reflexivity.
    + vm_compute; reflexivity.
  - destruct (promotion_fails_iff_duplicate
                [(L "head", L "ab"); (L "zed", L "bc")]
                [(L "<start>", [L "<whole>"]); (L "<whole>", [L "abcd"])]
                [(L "<start>", [L "<whole>"]); (L "<whole>", [L "<head>cd"])]
                [(L "head", L "<head>", L "ab")])
      as (_ & _ & H).
    + reflexivity.
    + vm_compute; reflexivity.
    + destruct (H [(L "<start>", [L "<whole>"]); (L "<whole>", [L "<head>cd"]);
                   (L "<head>", [L "ab"])]
                  [(L "zed", L "bc")]) as (Hv & _ & Hr).
      * vm_compute; reflexivity.
      * split; [exact Hv|].
        apply (Hr (L "<head>")); left; reflexivity.
Defined.

Lemma extract_loop_exception (fuel : nat) :
  forall (values : dict str) (g : grammar) (e : exn),
  length values < fuel ->
  outcome (extract_loop fuel values g) = Raise e ->
  exists w, e = KeyError w /\ In w (keys values).
Proof.
  induction fuel as [|fuel IH]; intros values g e Hl Hout; [lia|].
  cbn [extract_loop] in Hout.
  pose proof (scan_values_vars values g []) as Hv.
  destruct (scan_values values g []) as [g' nr]; cbn [snd] in Hv.
  destruct nr as [|t nr]; [discriminate|].
  destruct (promote (t :: nr) g' values) as [[[e'|] g''] values'] eqn:Hp.
  - cbn [outcome] in Hout; injection Hout as ->.
    apply promote_fail_KeyError in Hp as (w & -> & Hin & _).
    exists w; split; [reflexivity|].
    apply in_map_iff in Hin as (t' & <- & Ht').
    destruct (Hv t' Ht') as [[]|H]; exact H.
  - cbn [one_more_pass outcome] in Hout.
    pose proof (promote_ok_length _ _ _ _ _ Hp) as Hlen; simpl in Hlen.
    destruct (IH values' g'' e) as (w & -> & Hin); [lia|exact Hout|].
    exists w; split; [reflexivity|].
    apply in_map_iff in Hin as (x & <- & Hx).
    apply in_map; eapply promote_subset; eauto.
Qed.

(** X20: called while no hook is installed, [get_grammar] raises nothing
    of its own but [KeyError]: an exception it ends with is the one the
    callable raised, or a [KeyError] for a variable of the trace record. *)
Theorem get_grammar_exceptions (function : Callable) (input : str)
    (st st' : State) (e : exn) :
  trace_hook st = None ->
  get_grammar function input st = (Raise e, st') ->
  (exists tag, snd (function input) = Some tag /\ e = Raised tag) \/
  (snd (function input) = None /\
   exists w, e = KeyError w /\
             In w (keys (traced input (fst (function input))))).
Proof.
  intros _ Hg; rewrite get_grammar_run in Hg.
  destruct (snd (function input)) as [tag|].
  - injection Hg as <- _; left; eauto.
  - right; split; [reflexivity|].
    apply (f_equal fst) in Hg; cbn [fst] in Hg.
    eapply extract_loop_exception; [|exact Hg]; lia.
Qed.

Lemma get_grammar_exceptions_witness :
  (exists tag, snd (shared_part (L "xabyab")) = Some tag /\
               KeyError (L "w") = Raised tag) \/
  (snd (shared_part (L "xabyab")) = None /\
   exists w, KeyError (L "w") = KeyError w /\
             In w (keys (traced (L "xabyab")
                           (fst (shared_part (L "xabyab")))))).
Proof.
  apply (get_grammar_exceptions shared_part (L "xabyab") initial_state
           (snd (get_grammar shared_part (L "xabyab") initial_state))).
  - reflexivity.
  - vm_compute; reflexivity.
Defined.

(** ** The order of the trace record *)

Lemma keys_dict_set_step {V} (d : dict V) (k : str) (v : V) :
  keys (dict_set d k v) =
  if str_mem k (keys d) then keys d else keys d ++ [k].
Proof.
  destruct (str_mem k (keys d)) eqn:E.
  - apply str_mem_spec in E; apply keys_dict_set_in; exact E.
  - rewrite dict_set_fresh.
    + unfold keys; rewrite map_app; reflexivity.
    + intros Hin; apply str_mem_spec in Hin; congruence.
Qed.

Lemma fold_record_order (input : str) (bindings : list (str * PyValue))
    (d : dict str) :
  keys (fold_left (record input) bindings d) =
  fold_left (fun acc k => if str_mem k acc then acc else acc ++ [k])
    (qualifying_names input bindings) (keys d).
Proof.
  revert d; induction bindings as [|[var value] rest IH]; intros d.
  - reflexivity.
  - cbn [fold_left]; rewrite IH.
    unfold qualifying_names, record; cbn [filter fst snd].
    destruct (qualifies input value) as [s|]; [|reflexivity].
    cbn [map fold_left fst]; rewrite keys_dict_set_step; reflexivity.
Qed.

(** X21: for a call made while no hook is installed, the record of
    [trace_function] lists the names in the order in which each was first
    observed with a value that passes the filter; this is the order in
    which [get_grammar] substitutes them. *)
Theorem trace_record_order (function : Callable) (input : str)
    (st st' : State) (values : dict str) :
  trace_hook st = None ->
  trace_function function input st = (Ok values, st') ->
  keys values =
  first_seen (qualifying_names input (concat (fst (function input)))).
Proof.
  intros _ Ht; rewrite trace_function_run in Ht.
  destruct (snd (function input)); [discriminate|].
  injection Ht as <- _; apply fold_record_order.
Qed.

Lemma trace_record_order_witness :
  keys (traced (L "http://a.org/#top")
          (fst (url_splitter (L "http://a.org/#top"))))
  = [L "url"; L "scheme"; L "netloc"; L "fragment"].
Proof.
  apply (trace_record_order url_splitter (L "http://a.org/#top")
           initial_state
           (snd (trace_function url_splitter (L "http://a.org/#top")
                   initial_state))).
  - reflexivity.
  - vm_compute; reflexivity.
Defined.

(** ** The merged grammar is usable *)

Lemma well_shaped_usable (g : grammar) : well_shaped g -> usable g.
Proof.
  intros (H1 & H2 & H3); split; [exact H1|]; split; [exact H2|].
  eapply Forall_impl; [|exact H3].
  intros [k alts] H; cbn [snd] in *.
  destruct alts as [|a [|b l]]; try discriminate.
  split; [discriminate|repeat constructor; intros []].
Qed.

Lemma merge_usable (m g : grammar) :
  usable m -> well_shaped g -> usable (merge_grammars m g).
Proof.
  intros (M1 & M2 & M3) (G1 & G2 & G3).
  pose proof (merge_grammars_nodup g m M2) as Hn.
  assert (Hs : forallb (fun r => single (snd r)) g = true).
  { apply forallb_forall; intros r Hr; rewrite Forall_forall in G3.
    specialize (G3 r Hr); destruct (snd r) as [|a [|b l]]; try discriminate.
    reflexivity. }
  destruct (merge_union m g M2 G2 Hs) as [_ Hu].
  split; [|split; [exact Hn|]].
  - assert (Hk : exists added, keys (merge_grammars m g) = keys m ++ added).
    { clear - M2; unfold merge_grammars; revert m M2.
      induction g as [|[k r] g IH]; intros m M2.
      - exists []; rewrite app_nil_r; reflexivity.
      - cbn [fold_left].
        destruct (IH _ (merge_rule_nodup m k r M2)) as (a1 & ->).
        rewrite merge_rule_spec by exact M2.
        destruct (keys_dict_set_grow m k
                    match dict_get m k with
                    | Some repl1 => merged_rule repl1 r
                    | None => r
                    end) as (a2 & ->).
        exists (a2 ++ a1); rewrite app_assoc; reflexivity. }
    destruct Hk as (added & ->).
    destruct (keys m); [discriminate|exact M1].
  - rewrite Forall_forall in *; intros [k alts] Hin; cbn [snd].
    pose proof (dict_get_in _ _ _ Hn Hin) as Hg; split.
    + rewrite (merge_lookup m g k M2 G2) in Hg.
      destruct (dict_get g k) as [repl2|] eqn:E2.
      * apply dict_get_some_in in E2; pose proof (G3 _ E2) as Hl.
        cbn [snd] in Hl; destruct repl2 as [|a2 [|b l]]; try discriminate.
        destruct (dict_get m k) as [repl1|] eqn:E1.
        -- injection Hg as <-.
           destruct (str_mem a2 repl1) eqn:Em; cbn [negb rev app].
           ++ apply str_mem_spec in Em; intros ->; destruct Em.
           ++ destruct repl1; discriminate.
        -- injection Hg as <-; discriminate.
      * apply dict_get_some_in in Hg; apply (M3 _ Hg).
    + apply (Hu (fun k' alts' E => proj2 (M3 _ (dict_get_some_in _ _ _ E)))
               k alts Hg).
Qed.

Lemma merge_inputs_usable (function : Callable) (inputs : list str) :
  forall (acc : option grammar) (st st' : State) (m : grammar),
  match acc with Some m0 => usable m0 | None => True end ->
  merge_inputs function inputs acc st = (Ok (Some m), st') ->
  usable m.
Proof.
  induction inputs as [|i rest IH]; intros acc st st' m Hacc Hm.
  - injection Hm as -> _; exact Hacc.
  - cbn [merge_inputs] in Hm; unfold bind in Hm.
    destruct (get_grammar function i st) as [[g|e] st1] eqn:Hg;
      [|discriminate].
    pose proof (get_grammar_result_shape _ _ _ _ _ Hg) as Hw.
    destruct acc as [m0|].
    + apply (IH (Some (merge_grammars m0 g)) _ _ _
               (merge_usable m0 g Hacc Hw) Hm).
    + apply (IH (Some g) _ _ _ (well_shaped_usable g Hw) Hm).
Qed.

(** X22: a grammar that [get_merged_grammar] returns can be handed to a
    fuzzer: the start rule comes first, no key is repeated, and every rule
    has at least one alternative and no alternative twice. *)
Theorem merged_grammar_usable (function : Callable) (inputs : list str)
    (st st' : State) (m : grammar) :
  get_merged_grammar function inputs st = (Ok (Some m), st') ->
  hd_error (keys m) = Some START_SYMBOL /\
  NoDup (keys m) /\
  Forall (fun r => snd r <> [] /\ NoDup (snd r)) m.
Proof.
  intros Hm; exact (merge_inputs_usable function inputs None st st' m I Hm).
Qed.

Lemma merged_grammar_usable_witness :
  NoDup (keys (match fst (get_merged_grammar url_splitter
                            [L "http://a.org/#top"; L "ab"] initial_state)
               with
               | Ok (Some m) => m
               | _ => []
               end)).
Proof.
  destruct (merged_grammar_usable url_splitter
              [L "http://a.org/#top"; L "ab"] initial_state
              (snd (get_merged_grammar url_splitter
                      [L "http://a.org/#top"; L "ab"] initial_state))
              (match fst (get_merged_grammar url_splitter
                            [L "http://a.org/#top"; L "ab"] initial_state)
               with
               | Ok (Some m) => m
               | _ => []
               end)) as (_ & H & _).
  - vm_compute; reflexivity.
  - exact H.
Defined.
